(** * pymocap: the [MocapTrajectory] class of [pymocap/mocap.py]

    A shallow embedding of the trajectory model and of its queries, and the
    properties the specification states about them.

    Conventions of the embedding.
    - A [float64] is a real number ([R]): rounding is not modelled.  numpy's
      [x / y] is [Rdiv]; the two agree whenever [y] is not zero, and the
      places where numpy would produce [nan] are pointed out where they occur.
    - An [ndarray] is a nested list, outermost axis first: a vector is a
      [list R], an array of shape (r, c) a list of r rows of c numbers, an
      array of shape (n, r, c) a list of n such matrices.
    - [csaps], [pylie] and [scipy.interpolate.interp1d] are libraries the
      class calls.  The univariate smoothing spline, the two quaternion
      conversions and the two [from_components] of [SE3] and [SE23] are
      variables of the sections below; [SO3.wedge] and the nearest-neighbour
      interpolant are written out from their documentation. *)

From Stdlib Require Import String Ascii.
From Stdlib Require Import Reals Lra Lia ZArith Bool Arith List Sorted.
Import ListNotations.
Open Scope R_scope.

Set Implicit Arguments.

(** ** numpy *)

Module Np.

Definition vec := list R.
Definition matrix := list vec.
Definition tensor3 := list matrix.

(** The result of an operation whose number of axes depends on the data
    ([squeeze]). *)
Inductive ndarray :=
| Arr1 (v : vec)
| Arr2 (m : matrix).

(** [shape] of an [ndarray]; the trailing length of an array with no row is
    not recorded by a nested list and reads as missing. *)
Definition shape (a : ndarray) : list nat :=
  match a with
  | Arr1 v => [length v]
  | Arr2 m => [length m; length (hd [] m)]
  end.

(** [np.atleast_2d] *)
Definition atleast_2d (a : ndarray) : matrix :=
  match a with
  | Arr1 v => [v]
  | Arr2 m => m
  end.

Definition sum (v : vec) : R := fold_right Rplus 0 v.

(** [zipWith] over two vectors of one length. *)
Fixpoint map2 {A B C} (f : A -> B -> C) (u : list A) (v : list B) : list C :=
  match u, v with
  | x :: u', y :: v' => f x y :: map2 f u' v'
  | _, _ => []
  end.

Definition dot (u v : vec) : R := sum (map2 Rmult u v).

(** [np.linalg.norm] of a vector. *)
Definition norm (v : vec) : R := sqrt (dot v v).

Definition ncols (m : matrix) : nat := length (hd [] m).

(** [m[:, j]] *)
Definition col (j : nat) (m : matrix) : vec := map (fun r => nth j r 0) m.

(** [m.T] for a 2-D array. *)
Definition T (m : matrix) : matrix := map (fun j => col j m) (seq 0 (ncols m)).

(** [a @ b] for two 2-D arrays. *)
Definition matmul (a b : matrix) : matrix :=
  map (fun r => map (fun j => dot r (col j b)) (seq 0 (ncols b))) a.

(** [a @ b] for two stacks of matrices of one length. *)
Definition matmul3 (a b : tensor3) : tensor3 := map2 matmul a b.

(** [k * m] *)
Definition scale (k : R) (m : matrix) : matrix := map (map (Rmult k)) m.

(** [a - b] for two 2-D arrays of one shape. *)
Definition sub (a b : matrix) : matrix := map2 (map2 Rminus) a b.

(** [np.eye(n)] *)
Definition eye (n : nat) : matrix :=
  map (fun i => map (fun j => if Nat.eqb i j then 1 else 0) (seq 0 n)) (seq 0 n).

(** [np.hstack((a, b))] for two 2-D arrays with as many rows. *)
Definition hstack (a b : matrix) : matrix := map2 (@app R) a b.

(** [v.reshape((-1, 1))]: a vector as a column. *)
Definition column (v : vec) : matrix := map (fun x => [x]) v.

(** [m.ravel()] *)
Definition ravel (m : matrix) : vec := concat m.

(** [np.expand_dims(m, 2)]: shape (n, k) to (n, k, 1). *)
Definition expand_dims_2 (m : matrix) : tensor3 := map column m.

(** [np.transpose(c, axes=[0, 2, 1])] *)
Definition transpose_021 (c : tensor3) : tensor3 := map T c.

(** [a.squeeze()] for [a] of shape (n, k, 1) with [k] other than 1: the last
    axis goes, and the first one too when [n] is 1. *)
Definition squeeze (a : tensor3) : ndarray :=
  match map ravel a with
  | [v] => Arr1 v
  | m => Arr2 m
  end.

(** [a.T] for an array of one or two axes. *)
Definition ndT (a : ndarray) : ndarray :=
  match a with
  | Arr1 v => Arr1 v
  | Arr2 m => Arr2 (T m)
  end.

(** [q / np.linalg.norm(q, axis=1)[:, None]]: every row over its norm.  A
    row of zeros becomes a row of [nan] in numpy, and stays a row of zeros
    here. *)
Definition normalize_rows (q : matrix) : matrix :=
  map (fun r => map (fun x => x / norm r) r) q.

(** [q / np.linalg.norm(q, axis=0)]: every column over its norm, with the
    same proviso for a column of zeros. *)
Definition normalize_cols (q : matrix) : matrix :=
  let n := map (fun j => norm (col j q)) (seq 0 (ncols q)) in
  map (fun r => map2 Rdiv r n) q.

End Np.

(** ** pylie *)

Module SO3.

(** Modelled from the spec: [pylie.SO3.wedge], the skew-symmetric
    cross-product matrix of a 3-vector given as a column; pylie ravels its
    argument first. *)
Definition wedge (xi : Np.matrix) : Np.matrix :=
  let x := Np.ravel xi in
  [ [0; - nth 2 x 0; nth 1 x 0];
    [nth 2 x 0; 0; - nth 0 x 0];
    [- nth 1 x 0; nth 0 x 0; 0] ].

End SO3.

(** ** csaps *)

(** The object [csaps(x, y, smooth=p)] returns: the data it was fitted to.
    [y] has one row per channel, and each channel is fitted on its own. *)
Record spline := Spline {
  sp_x : Np.vec;
  sp_y : Np.matrix;
  sp_smooth : R
}.

(** [csaps] raises [ValueError] when it is given fewer than two data sites,
    or sites that do not increase strictly.  The fit is written for the
    sites it accepts, and the statements about a trajectory that is being
    built assume them ([sampled] below). *)
Definition csaps (x : Np.vec) (y : Np.matrix) (smooth : R) : spline :=
  Spline x y smooth.

(** ** Python values *)

(** A call either returns or raises. *)
Inductive result (A : Type) :=
| Return (v : A)
| Raise (exc : String.string).
Arguments Return {A} v.
Arguments Raise {A} exc.

(** [s[lo:hi]] for [0 <= lo <= hi]. *)
Definition slice {A} (lo hi : nat) (l : list A) : list A :=
  firstn (hi - lo) (skipn lo l).

(** [a[i] = v] for an index within the array. *)
Fixpoint set_item {A} (i : nat) (v : A) (l : list A) {struct l} : list A :=
  match l, i with
  | [], _ => []
  | _ :: l', O => v :: l'
  | x :: l', S i' => x :: set_item i' v l'
  end.

(** [a[lo:hi] = v] *)
Fixpoint set_slice {A} (lo hi : nat) (v : A) (l : list A) {struct l}
    : list A :=
  match l with
  | [] => []
  | x :: l' =>
      match lo, hi with
      | _, O => l
      | O, S hi' => v :: set_slice O hi' v l'
      | S lo', S hi' => x :: set_slice lo' hi' v l'
      end
  end.

(** The arrays that some method updates in place live in a store, and are
    held by reference: a name bound to such an array, an argument or an
    attribute, is an index into the store. *)
Definition ref := nat.
Definition store := list Np.matrix.

Definition load (h : store) (r : ref) : Np.matrix := nth r h [].

Definition update (h : store) (r : ref) (a : Np.matrix) : store :=
  set_item r a h.

(** A new array: [np.array(...)]. *)
Definition alloc (h : store) (a : Np.matrix) : ref * store :=
  (length h, h ++ [a]).

(** [round(x)] for a float: the nearest integer, a tie going to the even one. *)
Definition round (x : R) : Z :=
  let f := (up x - 1)%Z in
  let d := x - IZR f in
  if Rlt_dec d (1 / 2) then f
  else if Rlt_dec (1 / 2) d then (f + 1)%Z
  else if Z.even f then f else (f + 1)%Z.

(** [np.cov(x)] for [x] with one row per variable and one column per
    observation.  With fewer than two observations numpy warns and every
    entry of its result is [nan]: that result is [None]. *)
Definition cov (x : Np.matrix) : option Np.matrix :=
  let n := Np.ncols x in
  let avg := map (fun r => Np.sum r / INR n) x in
  let X := Np.map2 (fun r a => map (fun v => v - a) r) x avg in
  let c := Np.matmul X (Np.T X) in
  if (n <=? 1)%nat then None
  else Some (Np.scale (1 / (INR n - 1)) c).

(** [np.trace] *)
Definition trace (c : Np.matrix) : R :=
  Np.sum (map (fun i => nth i (nth i c []) 0) (seq 0 (length c))).

(** [np.searchsorted(a, v, side='left')] on an array in ascending order: the
    first index whose entry is not below [v]. *)
Fixpoint searchsorted (a : Np.vec) (v : R) : nat :=
  match a with
  | [] => O
  | x :: a' => if Rlt_dec x v then S (searchsorted a' v) else O
  end.

(** Modelled from the spec: [scipy.interpolate.interp1d(x, y, "nearest",
    bounds_error=False, fill_value="extrapolate")] called at [x_new], for [x]
    in ascending order (scipy sorts it otherwise): the entry of [y] at the
    sample nearest to [x_new], found by a search among the midpoints [x_bds]
    of consecutive samples and clipped to the ends. *)
Definition x_bds (x : Np.vec) : Np.vec :=
  let half := map (fun v => v / 2) x in
  Np.map2 Rplus (tl half) (removelast half).

Definition x_new_index (x : Np.vec) (x_new : R) : nat :=
  Nat.min (searchsorted (x_bds x) x_new) (length x - 1).

Definition interp1d_nearest (x : Np.vec) (y : list nat) (x_new : R) : nat :=
  nth (x_new_index x x_new) y O.

(** ** ROS messages *)

(** [geometry_msgs.msg.PoseStamped], with [header.stamp.to_sec()] as
    [stamp_sec]. *)
Record PoseStamped := {
  stamp_sec : R;
  position_x : R; position_y : R; position_z : R;
  orientation_w : R; orientation_x : R; orientation_y : R; orientation_z : R
}.

(** What [from_bag] reads of a [rosbag.Bag]: the topics that
    [get_type_and_topic_info()[1].keys()] lists. *)
Record Bag := {
  bag_topics : list String.string
}.

(** [sub in s] for two strings. *)
Fixpoint str_in (sub s : String.string) : bool :=
  if String.prefix sub s then true
  else match s with
       | String.EmptyString => false
       | String.String _ s' => str_in sub s'
       end.

(** ** The trajectory model *)

Record MocapTrajectory := {
  stamps : Np.vec;
  raw_position : Np.matrix;
  raw_quaternion : ref;
  frame_id : option String.string;
  _pos_spline : spline;
  _quat_spline : spline;
  static_mask : list bool
}.

Definition set_pos_spline (self : MocapTrajectory) (s : spline) :=
  {| stamps := stamps self; raw_position := raw_position self;
     raw_quaternion := raw_quaternion self; frame_id := frame_id self;
     _pos_spline := s; _quat_spline := _quat_spline self;
     static_mask := static_mask self |}.

Definition set_quat_spline (self : MocapTrajectory) (s : spline) :=
  {| stamps := stamps self; raw_position := raw_position self;
     raw_quaternion := raw_quaternion self; frame_id := frame_id self;
     _pos_spline := _pos_spline self; _quat_spline := s;
     static_mask := static_mask self |}.

Definition set_static_mask (self : MocapTrajectory) (m : list bool) :=
  {| stamps := stamps self; raw_position := raw_position self;
     raw_quaternion := raw_quaternion self; frame_id := frame_id self;
     _pos_spline := _pos_spline self; _quat_spline := _quat_spline self;
     static_mask := m |}.

(** The default of [accelerometer]'s [g_a]. *)
Definition default_gravity : Np.vec := [0; 0; - (980665 / 100000)].

(** [-q - q_old] and [q - q_old] *)
Definition vneg (q : Np.vec) : Np.vec := map Ropp q.
Definition vsub (u v : Np.vec) : Np.vec := Np.map2 Rminus u v.

(** The loop of [_fit_quaternion_spline] over [quat[1:]], [q_old] being the
    row before the current one as the loop left it. *)
Fixpoint resolve_ambiguities (q_old : Np.vec) (rest : Np.matrix) : Np.matrix :=
  match rest with
  | [] => []
  | q :: rest' =>
      let q' :=
        if Rlt_dec (Np.norm (vsub (vneg q) q_old)) (Np.norm (vsub q q_old))
        then map (fun x => x * -1) q
        else q in
      q' :: resolve_ambiguities q' rest'
  end.

(** What [_fit_quaternion_spline] leaves in the array [quat] it was given:
    the rows normalized, then the signs resolved, both in place. *)
Definition normalize_quaternions (quat : Np.matrix) : Np.matrix :=
  match Np.normalize_rows quat with
  | [] => []
  | q0 :: rest => q0 :: resolve_ambiguities q0 rest
  end.

Section Trajectory.

(** [csaps]: the value at [t] of the derivative of order [nu] of the
    smoothing spline fitted to the samples [(x, y)] with smoothing [p]. *)
Variable csaps1 : Np.vec -> Np.vec -> R -> nat -> R -> R.

(** [pylie]: [SO3.from_quat(q, order="wxyz")] and [SO3.to_quat(C)] (a column). *)
Variable from_quat : Np.vec -> Np.matrix.
Variable to_quat : Np.matrix -> Np.matrix.

(** [bag_to_list] of [pymocap/utils.py]. *)
Variable bag_to_list : Bag -> list String.string -> list PoseStamped.

(** [sp(stamps, nu)]: one row per channel, one column per query time. *)
Definition spline_call (sp : spline) (query : Np.vec) (nu : nat) : Np.matrix :=
  map (fun y => map (csaps1 (sp_x sp) y (sp_smooth sp) nu) query) (sp_y sp).

Definition _fit_position_spline (self : MocapTrajectory) (stamps : Np.vec)
    (pos : Np.matrix) : MocapTrajectory :=
  set_pos_spline self (csaps stamps (Np.T pos) (9999 / 10000)).

(** The array [quat] is updated in place, and the spline is fitted to what
    it then holds. *)
Definition _fit_quaternion_spline (self : MocapTrajectory) (stamps : Np.vec)
    (quat : ref) (h : store) : MocapTrajectory * store :=
  let h := update h quat (normalize_quaternions (load h quat)) in
  (set_quat_spline self (csaps stamps (Np.T (load h quat)) (99999 / 100000)), h).

Definition position (self : MocapTrajectory) (query : Np.vec) : Np.matrix :=
  Np.T (spline_call (_pos_spline self) query 0).

Definition velocity (self : MocapTrajectory) (query : Np.vec) : Np.matrix :=
  Np.T (spline_call (_pos_spline self) query 1).

Definition acceleration (self : MocapTrajectory) (query : Np.vec) : Np.matrix :=
  Np.T (spline_call (_pos_spline self) query 2).

Definition quaternion (self : MocapTrajectory) (query : Np.vec) : Np.matrix :=
  let q := Np.T (spline_call (_quat_spline self) query 0) in
  Np.normalize_rows q.

Definition rot_matrix (self : MocapTrajectory) (query : Np.vec) : Np.tensor3 :=
  let quat := quaternion self query in
  map from_quat quat.

(** With no query time [rot_matrix] returns an array of one axis, on which
    [np.transpose(C_ab, axes=[0, 2, 1])] raises [ValueError]: [accelerometer]
    and [body_velocity] are written for a query time at least, and the
    statements about them assume one. *)
Definition accelerometer (self : MocapTrajectory) (query : Np.vec)
    (g_a : option Np.vec) : Np.ndarray :=
  let g_a := match g_a with None => default_gravity | Some g => g end in
  let a_zwa_a := Np.T (spline_call (_pos_spline self) query 2) in
  let C_ab := rot_matrix self query in
  let C_ba := Np.transpose_021 C_ab in
  let g_a := Np.column g_a in
  Np.squeeze
    (Np.matmul3 C_ba (map (fun a => Np.sub a g_a) (Np.expand_dims_2 a_zwa_a))).

Definition angular_velocity (self : MocapTrajectory) (query : Np.vec)
    : Np.ndarray :=
  let q := spline_call (_quat_spline self) query 0 in
  let q := Np.normalize_cols q in
  let N := Np.ncols q in
  let q_dot := Np.T (spline_call (_quat_spline self) query 1) in
  let eta := hd [] q in
  let eps := tl q in
  let S :=
    map (fun i =>
           let e := Np.column (Np.col i eps) in
           Np.hstack (Np.scale (-2) e)
             (Np.scale 2
                (Np.sub (Np.scale (nth i eta 0) (Np.eye 3)) (SO3.wedge e))))
        (seq 0 N) in
  Np.squeeze (Np.matmul3 S (Np.expand_dims_2 q_dot)).

Definition body_velocity (self : MocapTrajectory) (query : Np.vec)
    : Np.ndarray :=
  let v_zw_a := velocity self query in
  let v_zw_a := Np.expand_dims_2 v_zw_a in
  let C_ab := rot_matrix self query in
  let C_ba := Np.transpose_021 C_ab in
  Np.ndT (Np.squeeze (Np.matmul3 C_ba v_zw_a)).

(** The test of the loop of [get_static_mask] at index [i]:
    [np.trace(pos_cov) < cov_threshold], false on [nan]. *)
Definition window_is_static (self : MocapTrajectory) (window_half_width : nat)
    (cov_threshold : R) (i : nat) : bool :=
  let pos :=
    slice (i - window_half_width) (i + window_half_width) (raw_position self) in
  let pos_cov := cov (Np.T pos) in
  match pos_cov with
  | None => false
  | Some c => if Rlt_dec (trace c) cov_threshold then true else false
  end.

(** One iteration of the loop of [get_static_mask]. *)
Definition static_step (self : MocapTrajectory) (window_half_width : nat)
    (cov_threshold : R) (is_static : list bool) (i : nat) : list bool :=
  let size := length (stamps self) in
  if window_is_static self window_half_width cov_threshold i then
    let is_static := set_item i true is_static in
    if (i =? window_half_width)%nat then
      set_slice 0 window_half_width true is_static
    else if (i =? size - window_half_width - 1)%nat then
      set_slice i size true is_static
    else is_static
  else is_static.

(** The loop of [get_static_mask] for a half-width that is not negative. *)
Definition static_loop (self : MocapTrajectory) (window_half_width : nat)
    (cov_threshold : R) : list bool :=
  let size := length (stamps self) in
  fold_left (static_step self window_half_width cov_threshold)
    (seq window_half_width (size - window_half_width - window_half_width))
    (repeat false size).

(** The average mocap frequency of [get_static_mask]; numpy gives [inf] when
    the first and the last stamp are equal, and the statements assume they
    are not. *)
Definition average_freq (self : MocapTrajectory) : R :=
  1 / ((last (stamps self) 0 - hd 0 (stamps self)) / INR (length (stamps self))).

(** [round(window_size / 2 * freq)] *)
Definition half_width (self : MocapTrajectory) (window_size : R) : Z :=
  round (window_size / 2 * average_freq self).

(** A negative half-width (a negative window, or stamps that decrease) makes
    Python count indices from the end; it is read as 0 here, and the
    statements about [get_static_mask] assume it away. *)
Definition get_static_mask (self : MocapTrajectory) (window_size : R)
    (std_dev_threshold : R) : list bool :=
  let window_half_width := Z.to_nat (half_width self window_size) in
  let cov_threshold := std_dev_threshold ^ 2 in
  static_loop self window_half_width cov_threshold.

Definition is_static (self : MocapTrajectory) (query : Np.vec) : list bool :=
  let indexes := seq 0 (length (stamps self)) in
  let nearest_time_idx := interp1d_nearest (stamps self) indexes in
  map (fun t => nth (nearest_time_idx t) (static_mask self) false) query.

Definition rotate_body_frame (self : MocapTrajectory) (C_bm : Np.matrix)
    (h : store) : MocapTrajectory * store :=
  let C_wm := rot_matrix self (stamps self) in
  let C_wb := map (fun C => Np.matmul C (Np.T C_bm)) C_wm in
  let '(q_wb, h) := alloc h (map (fun C => Np.ravel (to_quat C)) C_wb) in
  _fit_quaternion_spline self (stamps self) q_wb h.

Definition rotate_world_frame (self : MocapTrajectory) (C_wn : Np.matrix)
    (h : store) : MocapTrajectory * store :=
  let C_wm := rot_matrix self (stamps self) in
  let C_nm := map (fun C => Np.matmul (Np.T C_wn) C) C_wm in
  let '(q_nm, h) := alloc h (map (fun C => Np.ravel (to_quat C)) C_nm) in
  let r_zw_w := position self (stamps self) in
  let r_zw_n := Np.T (Np.matmul (Np.T C_wn) (Np.T r_zw_w)) in
  let self := _fit_position_spline self (stamps self) r_zw_n in
  _fit_quaternion_spline self (stamps self) q_nm h.

(** [MocapTrajectory(stamps, position_data, quaternion_data, frame_id)].
    [raw_quaternion] is the array [quaternion_data] itself, the one that
    [_fit_quaternion_spline] then updates.  The two splines and the mask do
    not exist before they are assigned: they start out empty here. *)
Definition __init__ (stamps : Np.vec) (position_data : Np.matrix)
    (quaternion_data : ref) (frame_id : option String.string) (h : store)
    : MocapTrajectory * store :=
  let self :=
    {| stamps := stamps; raw_position := position_data;
       raw_quaternion := quaternion_data; frame_id := frame_id;
       _pos_spline := csaps [] [] 0; _quat_spline := csaps [] [] 0;
       static_mask := [] |} in
  let self := _fit_position_spline self stamps (raw_position self) in
  let '(self, h) :=
    _fit_quaternion_spline self stamps (raw_quaternion self) h in
  (set_static_mask self (get_static_mask self 1 (8 / 10000)), h).

Definition from_ros (pose_data : list PoseStamped)
    (frame_id : option String.string) (h : store) : MocapTrajectory * store :=
  let stamps := map stamp_sec pose_data in
  let position_data :=
    map (fun p => [position_x p; position_y p; position_z p]) pose_data in
  let '(quaternion_data, h) :=
    alloc h
      (map (fun p => [orientation_w p; orientation_x p; orientation_y p;
                      orientation_z p]) pose_data) in
  __init__ stamps position_data quaternion_data frame_id h.

Definition from_bag (bag : Bag) (body_id : String.string)
    (topic : option String.string) (h : store)
    : result (MocapTrajectory * store) :=
  let search_str :=
    String.append "vrpn_client_node/"%string (String.append body_id "/pose"%string) in
  let topics := bag_topics bag in
  let vrpn_topics := filter (fun s => str_in search_str s) topics in
  let vrpn_topics :=
    if (1 <? length vrpn_topics)%nat then
      filter (fun s => str_in (String.append body_id (String.append "/"%string search_str)) s)
        vrpn_topics
    else vrpn_topics in
  if (1 <? length vrpn_topics)%nat then
    Raise "ValueError"%string
  else
    let data := bag_to_list bag vrpn_topics in
    Return (from_ros data (Some body_id) h).

(** [pylie]: [SE3.from_components(C, r)] and [SE23.from_components(C, v, r)]. *)
Variable SE3_from_components : Np.matrix -> Np.vec -> Np.matrix.
Variable SE23_from_components : Np.matrix -> Np.vec -> Np.vec -> Np.matrix.

Definition pose_matrix (self : MocapTrajectory) (query : Np.vec)
    : Np.tensor3 :=
  let r := position self query in
  let C := rot_matrix self query in
  map (fun i => SE3_from_components (nth i C []) (nth i r []))
      (seq 0 (length r)).

Definition extended_pose_matrix (self : MocapTrajectory) (query : Np.vec)
    : Np.tensor3 :=
  let r := position self query in
  let C := rot_matrix self query in
  let v := velocity self query in
  map (fun i => SE23_from_components (nth i C []) (nth i v []) (nth i r []))
      (seq 0 (length r)).

(** [pynav.lib.states]: an [SE3State] or an [SE23State], each made of a
    value, a stamp and a state ID. *)
Inductive pynav_state :=
| SE3State (value : Np.matrix) (stamp : R) (state_id : option String.string)
| SE23State (value : Np.matrix) (stamp : R) (state_id : option String.string).

Definition to_pynav (self : MocapTrajectory) (query : Np.vec)
    (extended_pose : bool) : list pynav_state :=
  if extended_pose then
    let T := extended_pose_matrix self query in
    map (fun i => SE23State (nth i T []) (nth i query 0) (frame_id self))
        (seq 0 (length query))
  else
    let T := pose_matrix self query in
    map (fun i => SE3State (nth i T []) (nth i query 0) (frame_id self))
        (seq 0 (length query)).

(** ** The specification's vocabulary *)

(** The value at one query time of every channel of a spline's derivative of
    order [nu]. *)
Definition spline_at (sp : spline) (nu : nat) (t : R) : Np.vec :=
  map (fun y => csaps1 (sp_x sp) y (sp_smooth sp) nu t) (sp_y sp).

(** A vector re-normalized to unit length. *)
Definition normalized (v : Np.vec) : Np.vec := map (fun x => x / Np.norm v) v.

(** A matrix applied to a vector. *)
Definition matvec (m : Np.matrix) (v : Np.vec) : Np.vec :=
  map (fun r => Np.dot r v) m.

(** The 3x4 matrix [S(q) = [-2 eps, 2 (eta I3 - skew(eps))]] of a quaternion
    [q = [eta, eps1, eps2, eps3]], entry by entry. *)
Definition S_matrix (q : Np.vec) : Np.matrix :=
  let eta := nth 0 q 0 in
  let e1 := nth 1 q 0 in
  let e2 := nth 2 q 0 in
  let e3 := nth 3 q 0 in
  [ [-2 * e1; 2 * eta; 2 * e3; -2 * e2];
    [-2 * e2; -2 * e3; 2 * eta; 2 * e1];
    [-2 * e3; 2 * e2; -2 * e1; 2 * eta] ].

(** [rot_matrix] at one query time: the rotation of the re-normalized value
    of the orientation spline. *)
Definition rot_at (self : MocapTrajectory) (t : R) : Np.matrix :=
  from_quat (normalized (spline_at (_quat_spline self) 0 t)).

(** [position], [velocity] and [acceleration] at one query time. *)
Definition position_at (self : MocapTrajectory) (t : R) : Np.vec :=
  spline_at (_pos_spline self) 0 t.
Definition velocity_at (self : MocapTrajectory) (t : R) : Np.vec :=
  spline_at (_pos_spline self) 1 t.
Definition acceleration_at (self : MocapTrajectory) (t : R) : Np.vec :=
  spline_at (_pos_spline self) 2 t.

(** The two splines of a trajectory built from N x 3 positions and N x 4
    quaternions have three and four channels. *)
Definition well_shaped (self : MocapTrajectory) : Prop :=
  length (sp_y (_pos_spline self)) = 3%nat /\
  length (sp_y (_quat_spline self)) = 4%nat.

(** A 3 x 3 array. *)
Definition is_3x3 (m : Np.matrix) : Prop :=
  length m = 3%nat /\ Forall (fun r => length r = 3%nat) m.

(** A row of unit Euclidean norm. *)
Definition unit_norm (q : Np.vec) : Prop := Np.norm q = 1.

(** Of the two signs of [q], the one taken is not farther from [q_prev]:
    [||q - q_prev|| <= ||-q - q_prev||]. *)
Definition closer_sign (q_prev q : Np.vec) : Prop :=
  Np.norm (vsub q q_prev) <= Np.norm (vsub (vneg q) q_prev).

(** A later row as the walk leaves it: [q'] is [q], the row before the walk,
    multiplied by -1 exactly when that is strictly closer to [q_prev], the
    row before it as the walk left it. *)
Definition flipped_when_closer (q_prev q q' : Np.vec) : Prop :=
  (Np.norm (vsub (vneg q) q_prev) < Np.norm (vsub q q_prev) /\ q' = vneg q)
  \/ (~ Np.norm (vsub (vneg q) q_prev) < Np.norm (vsub q q_prev) /\ q' = q).

(** A relation holds between every two consecutive rows. *)
Fixpoint consecutive (P : Np.vec -> Np.vec -> Prop) (l : Np.matrix) : Prop :=
  match l with
  | x :: l' =>
      match l' with
      | y :: _ => P x y /\ consecutive P l'
      | [] => True
      end
  | [] => True
  end.

(** The flag of sample [j] once the loop of [get_static_mask] has gone through
    the indices below [k]: its own window was static, or it lies before the
    first window and that one was static, or it lies from the last window on,
    that one was static and is not the first as well. *)
Definition mask_after (self : MocapTrajectory) (h : nat) (thr : R)
    (k j : nat) : bool :=
  let size := length (stamps self) in
  let static := window_is_static self h thr in
  ((h <=? j) && (j <? k) && static j
   || (j <? h) && (h <? k) && static h
   || (size - h - 1 <=? j) && (h <? size - h - 1) && (size - h - 1 <? k)
      && static (size - h - 1))%nat.

(** The trace of the covariance of the position rows [pos] is a number
    strictly below [threshold]. *)
Definition trace_below (pos : Np.matrix) (threshold : R) : Prop :=
  exists c, cov (Np.T pos) = Some c /\ trace c < threshold.

(** Three samples at rest, one second apart: the array of their
    orientations, and the trajectory built from them. *)
Definition still_store : store :=
  [ [ [1; 0; 0; 0]; [1; 0; 0; 0]; [1; 0; 0; 0] ] ].

Definition still : MocapTrajectory :=
  fst (__init__ [0; 1; 2] [ [0; 0; 0]; [0; 0; 0]; [0; 0; 0] ] 0%nat None
         still_store).

(** Sample [i] is one of those nearest to the time [t]. *)
Definition nearest_sample (x : Np.vec) (t : R) (i : nat) : Prop :=
  (i < length x)%nat
  /\ forall j, (j < length x)%nat ->
       Rabs (nth i x 0 - t) <= Rabs (nth j x 0 - t).

(** A bag in which two topics carry the pose of the body [ifo001]. *)
Definition two_streams : Bag :=
  {| bag_topics :=
       [ "/a/ifo001/vrpn_client_node/ifo001/pose"%string;
         "/b/ifo001/vrpn_client_node/ifo001/pose"%string;
         "/ifo001/mavros/imu/mag"%string ] |}.

(** The topics that [from_bag] is left with for a body. *)
Definition candidate_topics (bag : Bag) (body_id : String.string) :=
  let search_str :=
    String.append "vrpn_client_node/"%string
      (String.append body_id "/pose"%string) in
  let vrpn_topics := filter (fun s => str_in search_str s) (bag_topics bag) in
  if (1 <? length vrpn_topics)%nat then
    filter (fun s => str_in (String.append body_id
                               (String.append "/"%string search_str)) s)
      vrpn_topics
  else vrpn_topics.

(** Instances of the library functions, to run the model on: a spline that
    stays at the first sample of its channel, and the conversions of the
    identity rotation. *)
Definition constant_spline (x y : Np.vec) (p : R) (nu : nat) (t : R) : R :=
  match nu with
  | O => hd 0 y
  | S _ => 0
  end.

Definition identity_rotation (q : Np.vec) : Np.matrix := Np.eye 3.

Definition identity_quaternion (C : Np.matrix) : Np.matrix :=
  Np.column [1; 0; 0; 0].

(** Input that the constructor takes without raising: two stamps or more in
    strictly increasing order (what [csaps] asks of its data sites), as many
    positions of three numbers and as many quaternions of four. *)
Definition sampled (x : Np.vec) (pos quat : Np.matrix) : Prop :=
  StronglySorted Rlt x /\ (2 <= length x)%nat
  /\ length pos = length x /\ Forall (fun r => length r = 3%nat) pos
  /\ length quat = length x /\ Forall (fun r => length r = 4%nat) quat.

(** A row of the normalizer's output against the row it came from: the row
    over its norm, or the opposite of that. *)
Definition rescaled_or_flipped (r r' : Np.vec) : Prop :=
  r' = normalized r \/ r' = vneg (normalized r).

(** Further instances of the library functions, to run the model on: the
    homogeneous matrices that hold a rotation, a position and a velocity,
    and a reader that finds two poses at rest, one second apart, whatever
    the topic. *)
Definition homogeneous (C : Np.matrix) (r : Np.vec) : Np.matrix :=
  Np.hstack C (Np.column r) ++ [ [0; 0; 0; 1] ].

Definition extended_homogeneous (C : Np.matrix) (v r : Np.vec) : Np.matrix :=
  Np.hstack (Np.hstack C (Np.column v)) (Np.column r)
  ++ [ [0; 0; 0; 1; 0]; [0; 0; 0; 0; 1] ].

Definition pose_at_rest (t : R) : PoseStamped :=
  {| stamp_sec := t;
     position_x := 0; position_y := 0; position_z := 0;
     orientation_w := 1; orientation_x := 0; orientation_y := 0;
     orientation_z := 0 |}.

Definition two_poses (bag : Bag) (topics : list String.string)
    : list PoseStamped :=
  [pose_at_rest 0; pose_at_rest 1].

(** A bag in which one topic carries the pose of the body [ifo001]. *)
Definition one_stream : Bag :=
  {| bag_topics :=
       [ "/ifo001/vrpn_client_node/ifo001/pose"%string;
         "/ifo001/mavros/imu/mag"%string ] |}.

(** The half-width of [get_static_mask] is defined: the stamps span some
    time (the average frequency is a number) and the rounded half-width is
    not negative (no index counts from the end). *)
Definition window_defined (self : MocapTrajectory) (window_size : R) : Prop :=
  stamps self <> []
  /\ last (stamps self) 0 <> hd 0 (stamps self)
  /\ (0 <= half_width self window_size)%Z.

(** ** Properties *)

(** *** Lists and arrays *)

Lemma map2_map_map {A B C D} (f : B -> C -> D) (g : A -> B) (h : A -> C) l :
  Np.map2 f (map g l) (map h l) = map (fun t => f (g t) (h t)) l.
Proof. induction l as [|a l IH]; simpl; [reflexivity | now rewrite IH]. Qed.

Lemma map_seq_nth {A B} (f : A -> B) (l : list A) (d : A) :
  map (fun i => f (nth i l d)) (seq 0 (length l)) = map f l.
Proof.
  induction l as [|a l IH]; simpl; [reflexivity |].
  rewrite <- seq_shift, map_map. simpl. now rewrite IH.
Qed.

Lemma nth_map_lt {A B} (f : A -> B) (l : list A) (j : nat) (d : A) (d' : B) :
  (j < length l)%nat -> nth j (map f l) d' = f (nth j l d).
Proof.
  intros Hj. rewrite (nth_indep _ d' (f d)) by now rewrite length_map.
  apply map_nth.
Qed.

(** Transposing the table of a family of functions over the query times. *)
Lemma T_table {A B} (F : A -> B -> R) (ys : list A) (query : list B) :
  ys <> [] ->
  Np.T (map (fun y => map (F y) query) ys)
  = map (fun t => map (fun y => F y t) ys) query.
Proof.
  intros Hys. unfold Np.T, Np.ncols.
  destruct ys as [|y0 ys]; [congruence | clear Hys].
  cbn [map hd]. rewrite length_map.
  destruct query as [|b query']; [reflexivity |].
  set (query := b :: query').
  rewrite <- (map_seq_nth (fun t => F y0 t :: map (fun y => F y t) ys)
                query b).
  apply map_ext_in. intros j Hj. apply in_seq in Hj.
  unfold Np.col. cbn [map]. f_equal.
  - apply nth_map_lt. lia.
  - rewrite map_map. apply map_ext. intros y. apply nth_map_lt. lia.
Qed.

Lemma spline_call_T (sp : spline) (query : Np.vec) (nu : nat) :
  sp_y sp <> [] ->
  Np.T (spline_call sp query nu) = map (spline_at sp nu) query.
Proof.
  intros H. unfold spline_call, spline_at.
  apply (T_table (fun y => csaps1 (sp_x sp) y (sp_smooth sp) nu)); assumption.
Qed.

Lemma atleast_2d_squeeze (a : Np.tensor3) :
  Np.atleast_2d (Np.squeeze a) = map Np.ravel a.
Proof.
  unfold Np.squeeze. destruct (map Np.ravel a) as [|v [|w m]]; reflexivity.
Qed.

Lemma matmul_column (m : Np.matrix) (v : Np.vec) :
  v <> [] -> Np.ravel (Np.matmul m (Np.column v)) = matvec m v.
Proof.
  intros Hv. unfold Np.matmul, Np.ravel, matvec, Np.ncols.
  destruct v as [|x v]; [congruence |]. cbn [Np.column map hd length seq].
  induction m as [|r m IH]; cbn [map concat app]; [reflexivity |].
  f_equal; [| exact IH].
  f_equal. unfold Np.col. cbn [map nth]. f_equal. rewrite map_map.
  cbn [nth]. now rewrite map_id.
Qed.

Lemma col_table {A} (F : A -> R -> R) (ys : list A) (query : Np.vec) (i : nat) :
  (i < length query)%nat ->
  Np.col i (map (fun y => map (F y) query) ys)
  = map (fun y => F y (nth i query 0)) ys.
Proof.
  intros Hi. unfold Np.col. rewrite map_map. apply map_ext.
  intros y. now apply nth_map_lt.
Qed.

Lemma ncols_table {A} (F : A -> R -> R) (ys : list A) (query : Np.vec) :
  ys <> [] -> Np.ncols (map (fun y => map (F y) query) ys) = length query.
Proof.
  destruct ys as [|y ys]; [congruence |]. intros _.
  unfold Np.ncols. cbn [map hd]. apply length_map.
Qed.

(** Normalizing the columns of a table divides each entry by the norm of the
    values of all the channels at its query time. *)
Lemma normalize_cols_table {A} (F : A -> R -> R) (ys : list A) (query : Np.vec) :
  ys <> [] ->
  Np.normalize_cols (map (fun y => map (F y) query) ys)
  = map (fun y =>
           map (fun t => F y t / Np.norm (map (fun y' => F y' t) ys)) query)
        ys.
Proof.
  intros Hys. unfold Np.normalize_cols. rewrite ncols_table by assumption.
  rewrite map_map. apply map_ext. intros y.
  rewrite <- (map2_map_map Rdiv (F y)
                (fun t => Np.norm (map (fun y' => F y' t) ys)) query).
  f_equal.
  rewrite <- (map_seq_nth (fun t => Np.norm (map (fun y' => F y' t) ys)) query 0).
  apply map_ext_in. intros j Hj. apply in_seq in Hj.
  rewrite col_table by lia. reflexivity.
Qed.

(** *** Angular velocity *)

(** C1. For every sequence of query times, [angular_velocity] returns, per
    query time, [S(q) q_dot]: [q] is the value of the orientation spline
    re-normalized to unit length, [q_dot] the spline's first derivative at
    that time, and [S(q)] the 3x4 matrix [[-2 eps, 2 (eta I3 - skew eps)]]
    of the scalar and vector parts of [q]. *)
Theorem angular_velocity_is_S_q_dot (self : MocapTrajectory) (query : Np.vec) :
  length (sp_y (_quat_spline self)) = 4%nat ->
  Np.atleast_2d (angular_velocity self query)
  = map (fun t =>
           matvec (S_matrix (normalized (spline_at (_quat_spline self) 0 t)))
                  (spline_at (_quat_spline self) 1 t))
        query.
Proof.
  intros H4. unfold angular_velocity. rewrite atleast_2d_squeeze.
  rewrite spline_call_T by (intros E; rewrite E in H4; discriminate).
  unfold spline_call, spline_at.
  destruct (_quat_spline self) as [x ys p]. cbn [sp_x sp_y sp_smooth] in *.
  destruct ys as [|y0 [|y1 [|y2 [|y3 [|? ?]]]]]; try discriminate. clear H4.
  rewrite (normalize_cols_table (fun y => csaps1 x y p 0%nat)) by discriminate.
  rewrite (ncols_table (fun y t => csaps1 x y p 0%nat t / _)) by discriminate.
  unfold Np.expand_dims_2, Np.matmul3. rewrite map_map.
  pose (Sfun := fun t =>
       let q := normalized (map (fun y => csaps1 x y p 0%nat t) [y0; y1; y2; y3]) in
       Np.hstack (Np.scale (-2) (Np.column (tl q)))
         (Np.scale 2 (Np.sub (Np.scale (hd 0 q) (Np.eye 3))
                             (SO3.wedge (Np.column (tl q)))))).
  match goal with
  | |- context [map ?f (seq 0 (length query))] =>
      assert (HS : map f (seq 0 (length query)) = map Sfun query)
  end.
  { rewrite <- (map_seq_nth Sfun query 0). apply map_ext_in.
    intros i Hi. apply in_seq in Hi. unfold Sfun, normalized.
    cbn [map tl hd]. unfold Np.col. cbn [map].
    rewrite !(@nth_map_lt _ _ _ query i 0 0) by lia. reflexivity. }
  rewrite HS. rewrite map2_map_map, map_map. apply map_ext. intros t.
  rewrite matmul_column by discriminate.
  unfold Sfun, normalized, S_matrix, matvec.
  cbn [map tl hd nth Np.column Np.scale Np.eye seq Nat.eqb Np.sub Np.map2
       SO3.wedge Np.ravel concat app Np.hstack Np.dot Np.sum fold_right].
  unfold Rdiv.
  repeat (apply (f_equal2 (@cons R)); [ring |]). reflexivity.
Qed.

(** *** Rotations and body-frame queries *)

Lemma quaternion_rows (self : MocapTrajectory) (query : Np.vec) :
  sp_y (_quat_spline self) <> [] ->
  quaternion self query
  = map (fun t => normalized (spline_at (_quat_spline self) 0 t)) query.
Proof.
  intros H. unfold quaternion. rewrite spline_call_T by assumption.
  unfold Np.normalize_rows. rewrite map_map. reflexivity.
Qed.

Lemma rot_matrix_rows (self : MocapTrajectory) (query : Np.vec) :
  sp_y (_quat_spline self) <> [] ->
  rot_matrix self query = map (rot_at self) query.
Proof.
  intros H. unfold rot_matrix. rewrite quaternion_rows by assumption.
  rewrite map_map. reflexivity.
Qed.

Lemma sub_column (a g : Np.vec) :
  Np.sub (Np.column a) (Np.column g) = Np.column (vsub a g).
Proof.
  unfold Np.sub, Np.column, vsub. revert g.
  induction a as [|x a IH]; intros [|y g]; cbn; try reflexivity.
  now rewrite IH.
Qed.

Lemma vsub_length (a g : Np.vec) :
  length a = length g -> length (vsub a g) = length a.
Proof.
  unfold vsub. revert g.
  induction a as [|x a IH]; intros [|y g] H; cbn in *; try congruence.
  now rewrite IH by congruence.
Qed.

Lemma well_shaped_channels (self : MocapTrajectory) :
  well_shaped self ->
  sp_y (_pos_spline self) <> [] /\ sp_y (_quat_spline self) <> [].
Proof.
  intros [Hp Hq]. split; intros E; [rewrite E in Hp | rewrite E in Hq];
    discriminate.
Qed.

Lemma spline_at_length (sp : spline) (nu : nat) (t : R) :
  length (spline_at sp nu t) = length (sp_y sp).
Proof. unfold spline_at. apply length_map. Qed.

(** C5. For every array of query times that is not empty and every gravity
    vector (by default [[0, 0, -9.80665]]), [accelerometer] returns, per
    query time, the transpose of [rot_matrix] at that time applied to the
    acceleration at that time minus gravity. *)
Theorem accelerometer_is_rotated_specific_force
    (self : MocapTrajectory) (query : Np.vec) (g_a : option Np.vec) :
  well_shaped self ->
  query <> [] ->
  (forall g, g_a = Some g -> length g = 3%nat) ->
  Np.atleast_2d (accelerometer self query g_a)
  = map (fun t =>
           matvec (Np.T (rot_at self t))
             (vsub (acceleration_at self t)
                (match g_a with
                 | None => [0; 0; - (980665 / 100000)]
                 | Some g => g
                 end)))
        query.
Proof.
  intros Hw _ Hg. destruct (well_shaped_channels Hw) as [Hp Hq].
  unfold accelerometer. rewrite atleast_2d_squeeze.
  rewrite spline_call_T by assumption.
  rewrite rot_matrix_rows by assumption.
  unfold Np.transpose_021, Np.expand_dims_2, Np.matmul3.
  rewrite !map_map, map2_map_map, map_map.
  apply map_ext. intros t. rewrite sub_column.
  set (g := match g_a with None => default_gravity | Some g => g end).
  assert (Hlen : length g = 3%nat).
  { subst g. destruct g_a as [g|]; [now apply Hg | reflexivity]. }
  rewrite matmul_column.
  - reflexivity.
  - intros E. apply (f_equal (@length R)) in E.
    rewrite vsub_length in E.
    + rewrite spline_at_length in E. destruct Hw as [Hp3 _].
      rewrite Hp3 in E. discriminate.
    + rewrite spline_at_length. destruct Hw as [Hp3 _]. congruence.
Qed.

(** What [body_velocity] computes before its final [.T]: one row per query
    time, the transpose of the rotation applied to the velocity. *)
Lemma body_velocity_rows (self : MocapTrajectory) (query : Np.vec) :
  well_shaped self ->
  map Np.ravel
    (Np.matmul3 (Np.transpose_021 (rot_matrix self query))
       (Np.expand_dims_2 (velocity self query)))
  = map (fun t => matvec (Np.T (rot_at self t)) (velocity_at self t)) query.
Proof.
  intros Hw. destruct (well_shaped_channels Hw) as [Hp Hq].
  unfold velocity. rewrite spline_call_T by assumption.
  rewrite rot_matrix_rows by assumption.
  unfold Np.transpose_021, Np.expand_dims_2, Np.matmul3.
  rewrite !map_map, map2_map_map, map_map.
  apply map_ext. intros t. rewrite matmul_column; [reflexivity |].
  intros E. apply (f_equal (@length R)) in E.
  rewrite spline_at_length in E. destruct Hw as [Hp3 _].
  rewrite Hp3 in E. discriminate.
Qed.

(** With two query times or more, [body_velocity] returns the transpose of
    the array that has one row per query time. *)
Lemma body_velocity_transposed (self : MocapTrajectory) (query : Np.vec) :
  well_shaped self ->
  (2 <= length query)%nat ->
  body_velocity self query
  = Np.Arr2
      (Np.T (map (fun t => matvec (Np.T (rot_at self t)) (velocity_at self t))
                 query)).
Proof.
  intros Hw HN. unfold body_velocity, Np.squeeze.
  rewrite body_velocity_rows by assumption.
  destruct query as [|t0 [|t1 query]]; cbn in HN; try lia.
  reflexivity.
Qed.

Lemma length_matvec (m : Np.matrix) (v : Np.vec) :
  length (matvec m v) = length m.
Proof. apply length_map. Qed.

Lemma length_T (m : Np.matrix) : length (Np.T m) = Np.ncols m.
Proof. unfold Np.T. now rewrite length_map, length_seq. Qed.

Lemma ncols_T (m : Np.matrix) :
  (0 < Np.ncols m)%nat -> Np.ncols (Np.T m) = length m.
Proof.
  intros H. unfold Np.T. destruct (Np.ncols m) as [|k]; [lia |].
  cbn [seq map]. unfold Np.ncols at 1. cbn [hd]. apply length_map.
Qed.

(** C4 (as the code has it). With two query times or more and rotation
    matrices of three columns, [body_velocity] returns an array of shape
    (3, N): one row per coordinate and one column per query time, where
    the documentation and the specification have shape (N, 3). *)
Theorem body_velocity_shape (self : MocapTrajectory) (query : Np.vec) :
  well_shaped self ->
  (forall q, Np.ncols (from_quat q) = 3%nat) ->
  (2 <= length query)%nat ->
  Np.shape (body_velocity self query) = [3%nat; length query].
Proof.
  intros Hw Hq HN. rewrite body_velocity_transposed by assumption.
  set (rows := map _ query).
  assert (Hc : Np.ncols rows = 3%nat).
  { subst rows. destruct query as [|t0 query]; [cbn in HN; lia |].
    unfold Np.ncols at 1. cbn [map hd].
    rewrite length_matvec, length_T. apply Hq. }
  unfold Np.shape. fold (Np.ncols (Np.T rows)).
  rewrite length_T, ncols_T by lia. rewrite Hc.
  subst rows. now rewrite length_map.
Qed.

(** *** Frame re-basing *)

Lemma matmul_table {A} (a : Np.matrix) (F : A -> R -> R) (ys : list A)
    (query : Np.vec) :
  ys <> [] ->
  Np.matmul a (map (fun y => map (F y) query) ys)
  = map (fun r => map (fun t => Np.dot r (map (fun y => F y t) ys)) query) a.
Proof.
  intros Hys. unfold Np.matmul. rewrite ncols_table by assumption.
  apply map_ext. intros r.
  rewrite <- (map_seq_nth (fun t => Np.dot r (map (fun y => F y t) ys)) query 0).
  apply map_ext_in. intros j Hj. apply in_seq in Hj.
  now rewrite col_table by lia.
Qed.

(** [(A @ r.T).T] applies [A] to every row of [r]. *)
Lemma T_matmul_T_position (self : MocapTrajectory) (a : Np.matrix)
    (query : Np.vec) :
  sp_y (_pos_spline self) <> [] -> a <> [] ->
  Np.T (Np.matmul a (Np.T (position self query)))
  = map (fun t => matvec a (position_at self t)) query.
Proof.
  intros Hp Ha. unfold position. rewrite spline_call_T by assumption.
  destruct query as [|t0 query'].
  - cbn [map]. unfold Np.T at 2. cbn. unfold Np.matmul. cbn [Np.ncols hd length seq map].
    unfold Np.T, Np.ncols. destruct a; [congruence | reflexivity].
  - set (query := t0 :: query'). unfold position_at, spline_at.
    unfold Np.vec in *.
    rewrite (@T_table _ _ (fun (t : R) y => csaps1 (sp_x (_pos_spline self)) y
                                         (sp_smooth (_pos_spline self)) 0 t)
               query (sp_y (_pos_spline self))) by discriminate.
    rewrite (matmul_table a (fun y t => csaps1 (sp_x (_pos_spline self)) y
                                          (sp_smooth (_pos_spline self)) 0 t))
      by assumption.
    rewrite (T_table (fun r t => Np.dot r _)) by assumption.
    reflexivity.
Qed.

Lemma is_3x3_T_nonempty (m : Np.matrix) : is_3x3 m -> Np.T m <> [].
Proof.
  intros [Hl Hr] E. apply (f_equal (@length Np.vec)) in E.
  rewrite length_T in E. destruct m as [|r m]; [discriminate |].
  inversion Hr as [|? ? Hr0 _]. unfold Np.ncols in E. cbn [hd] in E.
  rewrite Hr0 in E. discriminate.
Qed.

(** The store. *)

Lemma length_set_item {A} (i : nat) (v : A) (l : list A) :
  length (set_item i v l) = length l.
Proof.
  revert i. induction l as [|x l IH]; intros [|i]; cbn; try reflexivity.
  now rewrite IH.
Qed.

Lemma nth_set_item_same {A} (i : nat) (v d : A) (l : list A) :
  (i < length l)%nat -> nth i (set_item i v l) d = v.
Proof.
  revert i. induction l as [|x l IH]; intros [|i] H; cbn in *; try lia.
  - reflexivity.
  - apply IH. lia.
Qed.

Lemma nth_set_item_other {A} (i j : nat) (v d : A) (l : list A) :
  i <> j -> nth j (set_item i v l) d = nth j l d.
Proof.
  revert i j. induction l as [|x l IH]; intros [|i] [|j] H; cbn;
    try reflexivity; try congruence.
  apply IH. congruence.
Qed.

Lemma load_update_same (h : store) (r : ref) (a : Np.matrix) :
  (r < length h)%nat -> load (update h r a) r = a.
Proof. apply nth_set_item_same. Qed.

Lemma load_update_other (h : store) (r r' : ref) (a : Np.matrix) :
  r <> r' -> load (update h r a) r' = load h r'.
Proof. apply nth_set_item_other. Qed.

Lemma load_alloc_new (h : store) (a : Np.matrix) :
  load (snd (alloc h a)) (fst (alloc h a)) = a.
Proof.
  unfold load, alloc. cbn [fst snd].
  rewrite app_nth2 by lia. now rewrite Nat.sub_diag.
Qed.

Lemma load_alloc_old (h : store) (a : Np.matrix) (r : ref) :
  (r < length h)%nat -> load (snd (alloc h a)) r = load h r.
Proof. intros H. unfold load, alloc. cbn [snd]. now apply app_nth1. Qed.

(** What [_fit_quaternion_spline] does to a freshly made array [q]: the
    spline is fitted to the normalized rows, and no array that existed
    before is touched. *)
Lemma fit_fresh_quaternions (self : MocapTrajectory) (x : Np.vec)
    (q : Np.matrix) (h : store) :
  let '(r, h1) := alloc h q in
  let '(self', h') := _fit_quaternion_spline self x r h1 in
  self' = set_quat_spline self
            (csaps x (Np.T (normalize_quaternions q)) (99999 / 100000))
  /\ forall r', (r' < length h)%nat -> load h' r' = load h r'.
Proof.
  unfold _fit_quaternion_spline.
  pose proof (load_alloc_new h q) as Hn.
  pose proof (load_alloc_old h q) as Ho.
  unfold alloc in *. cbn [fst snd] in *.
  rewrite Hn. rewrite load_update_same by (rewrite length_app; cbn; lia).
  split; [reflexivity |].
  intros r' Hr'. rewrite load_update_other by lia. now apply Ho.
Qed.

Lemma ncols_normalize_quaternions (quat : Np.matrix) :
  Np.ncols (normalize_quaternions quat) = Np.ncols quat.
Proof.
  unfold normalize_quaternions, Np.normalize_rows, Np.ncols.
  destruct quat as [|q quat]; [reflexivity |]. cbn [map hd]. apply length_map.
Qed.

(** The constructor, given N x 3 positions and N x 4 quaternions with N at
    least 1, builds splines of three and four channels. *)
Lemma init_well_shaped (x : Np.vec) (pos : Np.matrix) (quat : ref)
    (f : option String.string) (h : store) :
  Np.ncols pos = 3%nat ->
  (quat < length h)%nat ->
  Np.ncols (load h quat) = 4%nat ->
  well_shaped (fst (__init__ x pos quat f h)).
Proof.
  intros Hp Hq H4. unfold well_shaped, __init__, _fit_quaternion_spline.
  cbn [fst _pos_spline _quat_spline set_static_mask set_quat_spline
       _fit_position_spline set_pos_spline raw_position raw_quaternion csaps
       sp_y].
  rewrite load_update_same by assumption.
  rewrite !length_T, ncols_normalize_quaternions. split; assumption.
Qed.

(** C7. [rotate_body_frame] recomputes the quaternions from the current
    spline at the original stamps, takes [C_wm @ C_bm.T] at each of them,
    normalizes the sequence again and re-fits the orientation spline only:
    the position data and spline, and so every position query, are as
    before. *)
Theorem rotate_body_frame_refits_orientation_only
    (self : MocapTrajectory) (C_bm : Np.matrix) (h : store) :
  well_shaped self ->
  let self' := fst (rotate_body_frame self C_bm h) in
  _quat_spline self'
  = csaps (stamps self)
      (Np.T (normalize_quaternions
               (map (fun t =>
                       Np.ravel (to_quat (Np.matmul (rot_at self t) (Np.T C_bm))))
                    (stamps self))))
      (99999 / 100000)
  /\ _pos_spline self' = _pos_spline self
  /\ raw_position self' = raw_position self
  /\ (forall query,
        position self' query = position self query
        /\ velocity self' query = velocity self query
        /\ acceleration self' query = acceleration self query).
Proof.
  intros Hw. destruct (well_shaped_channels Hw) as [_ Hq]. cbv zeta.
  unfold rotate_body_frame.
  rewrite rot_matrix_rows by assumption. rewrite !map_map.
  match goal with
  | |- context [alloc h ?q] =>
      pose proof (fit_fresh_quaternions self (stamps self) q h) as Hfit;
      destruct (alloc h q) as [r h1]
  end.
  destruct (_fit_quaternion_spline self (stamps self) r h1) as [self' h'].
  destruct Hfit as [-> _]. cbn [fst]. repeat split.
Qed.

(** C6. [rotate_world_frame] takes [C_wn.T @ C_wm] at each original stamp
    for the orientation, [C_wn.T] applied to the position that the current
    spline gives at each original stamp, and re-fits both splines from these
    two sequences. *)
Theorem rotate_world_frame_refits_both
    (self : MocapTrajectory) (C_wn : Np.matrix) (h : store) :
  well_shaped self ->
  is_3x3 C_wn ->
  let self' := fst (rotate_world_frame self C_wn h) in
  _quat_spline self'
  = csaps (stamps self)
      (Np.T (normalize_quaternions
               (map (fun t =>
                       Np.ravel (to_quat (Np.matmul (Np.T C_wn) (rot_at self t))))
                    (stamps self))))
      (99999 / 100000)
  /\ _pos_spline self'
     = csaps (stamps self)
         (Np.T (map (fun t => matvec (Np.T C_wn) (position_at self t))
                    (stamps self)))
         (9999 / 10000).
Proof.
  intros Hw HC. destruct (well_shaped_channels Hw) as [Hp Hq]. cbv zeta.
  unfold rotate_world_frame.
  rewrite rot_matrix_rows by assumption. rewrite !map_map.
  rewrite T_matmul_T_position by (try assumption; now apply is_3x3_T_nonempty).
  match goal with
  | |- context [alloc h ?q] =>
      pose proof (fit_fresh_quaternions
                    (_fit_position_spline self (stamps self)
                       (map (fun t => matvec (Np.T C_wn) (position_at self t))
                            (stamps self)))
                    (stamps self) q h) as Hfit;
      destruct (alloc h q) as [r h1]
  end.
  cbn [_fit_position_spline set_pos_spline stamps] in *.
  match goal with
  | |- context [_fit_quaternion_spline ?s ?x r h1] =>
      destruct (_fit_quaternion_spline s x r h1) as [self' h']
  end.
  destruct Hfit as [-> _]. cbn [fst]. split; reflexivity.
Qed.

(** Both rotations leave every attribute but the splines as it was, and
    every array that existed before the call as it was. *)
Lemma rotate_body_frame_frame (self : MocapTrajectory) (C : Np.matrix)
    (h : store) :
  let '(b, h') := rotate_body_frame self C h in
  (stamps b = stamps self /\ raw_position b = raw_position self
   /\ raw_quaternion b = raw_quaternion self /\ frame_id b = frame_id self
   /\ static_mask b = static_mask self)
  /\ forall r, (r < length h)%nat -> load h' r = load h r.
Proof.
  unfold rotate_body_frame.
  match goal with
  | |- context [alloc h ?q] =>
      pose proof (fit_fresh_quaternions self (stamps self) q h) as Hfit;
      destruct (alloc h q) as [r h1]
  end.
  destruct (_fit_quaternion_spline self (stamps self) r h1) as [b h'].
  destruct Hfit as [-> Hold]. split; [repeat split | exact Hold].
Qed.

Lemma rotate_world_frame_frame (self : MocapTrajectory) (C : Np.matrix)
    (h : store) :
  let '(w, h') := rotate_world_frame self C h in
  (stamps w = stamps self /\ raw_position w = raw_position self
   /\ raw_quaternion w = raw_quaternion self /\ frame_id w = frame_id self
   /\ static_mask w = static_mask self)
  /\ forall r, (r < length h)%nat -> load h' r = load h r.
Proof.
  unfold rotate_world_frame.
  match goal with
  | |- context [alloc h ?q] =>
      match goal with
      | |- context [_fit_quaternion_spline ?s ?x _ _] =>
          pose proof (fit_fresh_quaternions s x q h) as Hfit
      end;
      destruct (alloc h q) as [r h1]
  end.
  cbn [_fit_position_spline set_pos_spline stamps] in *.
  match goal with
  | |- context [_fit_quaternion_spline ?s ?x r h1] =>
      destruct (_fit_quaternion_spline s x r h1) as [w h']
  end.
  destruct Hfit as [-> Hold]. split; [repeat split | exact Hold].
Qed.

(** C10. Neither [rotate_body_frame] nor [rotate_world_frame] changes
    [stamps], [raw_position], [raw_quaternion] (the attribute and the array
    it names), [frame_id] or [static_mask]: only the splines are replaced,
    and [is_static] answers as before. *)
Theorem rotations_keep_raw_data_and_mask
    (self : MocapTrajectory) (C : Np.matrix) (h : store) :
  (raw_quaternion self < length h)%nat ->
  forall (rotate : MocapTrajectory -> Np.matrix -> store -> MocapTrajectory * store),
  rotate = rotate_body_frame \/ rotate = rotate_world_frame ->
  let self' := fst (rotate self C h) in
  let h' := snd (rotate self C h) in
  stamps self' = stamps self
  /\ raw_position self' = raw_position self
  /\ raw_quaternion self' = raw_quaternion self
  /\ load h' (raw_quaternion self') = load h (raw_quaternion self)
  /\ frame_id self' = frame_id self
  /\ static_mask self' = static_mask self
  /\ forall query, is_static self' query = is_static self query.
Proof.
  intros Hr rotate Hrot. cbv zeta.
  assert (Hf :
    (stamps (fst (rotate self C h)) = stamps self
     /\ raw_position (fst (rotate self C h)) = raw_position self
     /\ raw_quaternion (fst (rotate self C h)) = raw_quaternion self
     /\ frame_id (fst (rotate self C h)) = frame_id self
     /\ static_mask (fst (rotate self C h)) = static_mask self)
    /\ forall r, (r < length h)%nat -> load (snd (rotate self C h)) r = load h r).
  { destruct Hrot as [-> | ->].
    - pose proof (rotate_body_frame_frame self C h) as H.
      destruct (rotate_body_frame self C h). exact H.
    - pose proof (rotate_world_frame_frame self C h) as H.
      destruct (rotate_world_frame self C h). exact H. }
  destruct Hf as [(Hs & Hp & Hq & Hi & Hm) Hold].
  repeat split; try assumption.
  - rewrite Hq. now apply Hold.
  - intros query. unfold is_static. now rewrite Hs, Hm.
Qed.

(** *** The quaternion continuity normalizer *)

Lemma dot_scaled (k : R) (u v : Np.vec) :
  Np.dot (map (fun x => x * k) u) (map (fun x => x * k) v)
  = k * k * Np.dot u v.
Proof.
  unfold Np.dot, Np.sum. revert v.
  induction u as [|x u IH]; intros [|y v]; cbn; try ring.
  rewrite IH. ring.
Qed.

Lemma dot_self_nonneg (u : Np.vec) : 0 <= Np.dot u u.
Proof.
  unfold Np.dot, Np.sum. induction u as [|x u IH]; cbn; [lra |].
  pose proof (Rle_0_sqr x) as Hx. unfold Rsqr in Hx. lra.
Qed.

(** A row over its norm has norm 1, unless that norm is zero. *)
Lemma normalized_unit (r : Np.vec) :
  Np.norm r <> 0 -> unit_norm (map (fun x => x / Np.norm r) r).
Proof.
  intros Hn. unfold unit_norm. unfold Np.norm at 1. unfold Rdiv.
  rewrite dot_scaled.
  replace (Np.dot r r) with (Np.norm r * Np.norm r)
    by (unfold Np.norm; apply sqrt_sqrt, dot_self_nonneg).
  replace (/ Np.norm r * / Np.norm r * (Np.norm r * Np.norm r)) with 1
    by (field; assumption).
  apply sqrt_1.
Qed.

Lemma flip_is_vneg (q : Np.vec) : map (fun x => x * -1) q = vneg q.
Proof. unfold vneg. apply map_ext. intros x. ring. Qed.

Lemma vneg_vneg (q : Np.vec) : vneg (vneg q) = q.
Proof.
  unfold vneg. rewrite map_map. rewrite <- (map_id q) at 2.
  apply map_ext. intros x. ring.
Qed.

Lemma norm_vneg (q : Np.vec) : Np.norm (vneg q) = Np.norm q.
Proof.
  unfold Np.norm. f_equal. rewrite <- !flip_is_vneg, dot_scaled. ring.
Qed.

(** The loop keeps the norms and leaves every row on the sign closer to the
    row before it. *)
Lemma resolve_ambiguities_ok (rest : Np.matrix) :
  forall q_old,
    Forall unit_norm rest ->
    Forall unit_norm (resolve_ambiguities q_old rest)
    /\ consecutive closer_sign (q_old :: resolve_ambiguities q_old rest).
Proof.
  induction rest as [|q rest IH]; intros q_old Hu.
  - cbn. split; [constructor | exact I].
  - inversion Hu as [|? ? Hq Hrest]; subst. cbn [resolve_ambiguities].
    match goal with
    | |- context [if ?c then ?a else ?b] => set (q' := if c then a else b)
    end.
    assert (Hq' : unit_norm q' /\ closer_sign q_old q').
    { subst q'. destruct (Rlt_dec _ _) as [Hlt | Hge].
      - rewrite flip_is_vneg. split.
        + unfold unit_norm. now rewrite norm_vneg.
        + unfold closer_sign. rewrite vneg_vneg. lra.
      - split; [assumption |]. unfold closer_sign. lra. }
    destruct Hq' as [Hq'u Hq'c].
    destruct (IH q' Hrest) as [IHu IHc].
    split; [constructor; assumption |].
    cbn [consecutive]. split; assumption.
Qed.

(** [_fit_quaternion_spline] leaves the normalized rows in the array it was
    given and fits the spline to them. *)
Lemma fit_quaternion_spline_stores (self : MocapTrajectory) (x : Np.vec)
    (r : ref) (h : store) :
  (r < length h)%nat ->
  let '(self', h') := _fit_quaternion_spline self x r h in
  load h' r = normalize_quaternions (load h r)
  /\ _quat_spline self' = csaps x (Np.T (load h' r)) (99999 / 100000).
Proof.
  intros Hr. unfold _fit_quaternion_spline.
  rewrite load_update_same by assumption. split; reflexivity.
Qed.

(** With rows of non-zero norm the two steps leave rows of unit norm, each on
    the sign closer to the row before it. *)
Lemma normalize_quaternions_ok (quat : Np.matrix) :
  Forall (fun q => Np.norm q <> 0) quat ->
  Forall unit_norm (normalize_quaternions quat)
  /\ consecutive closer_sign (normalize_quaternions quat).
Proof.
  intros Hnz. unfold normalize_quaternions.
  assert (Hu : Forall unit_norm (Np.normalize_rows quat)).
  { unfold Np.normalize_rows. induction Hnz as [|q quat Hq _ IH]; cbn.
    - constructor.
    - constructor; [now apply normalized_unit | exact IH]. }
  destruct (Np.normalize_rows quat) as [|q0 rest]; [split; [constructor | exact I] |].
  inversion Hu as [|? ? Hq0 Hrest]; subst.
  destruct (resolve_ambiguities_ok q0 Hrest) as [Hru Hrc].
  split; [constructor; assumption | exact Hrc].
Qed.

(** Every row after the first is the normalized row, multiplied by -1
    exactly when that is strictly closer to the row before it as the loop
    left it. *)
Lemma resolve_ambiguities_flips (rest : Np.matrix) :
  forall q_old i q, (i < length rest)%nat -> nth i rest [] = q ->
    flipped_when_closer
      (nth i (q_old :: resolve_ambiguities q_old rest) [])
      q
      (nth i (resolve_ambiguities q_old rest) []).
Proof.
  induction rest as [|q rest IH]; intros q_old i u Hi <-;
    [cbn in Hi; lia |].
  cbn [resolve_ambiguities].
  match goal with
  | |- context [if ?c then ?a else ?b] => set (q' := if c then a else b)
  end.
  destruct i as [|i].
  - cbn [nth]. subst q'. unfold flipped_when_closer.
    destruct (Rlt_dec _ _) as [Hlt | Hge].
    + left. split; [exact Hlt | apply flip_is_vneg].
    + right. split; [exact Hge | reflexivity].
  - change (nth (S i) (q_old :: q' :: resolve_ambiguities q' rest) [])
      with (nth i (q' :: resolve_ambiguities q' rest) []).
    cbn [nth]. apply IH; [cbn in Hi; lia | reflexivity].
Qed.

Lemma length_resolve_ambiguities (rest : Np.matrix) :
  forall q_old, length (resolve_ambiguities q_old rest) = length rest.
Proof.
  induction rest as [|q rest IH]; intros q_old; cbn; [reflexivity |].
  now rewrite IH.
Qed.

(** The two steps against the rows given: the first row is only divided by
    its norm, and every later row is divided by its norm and then flipped
    exactly when that is strictly closer to the processed row before it. *)
Lemma normalize_quaternions_flips (quat : Np.matrix) :
  length (normalize_quaternions quat) = length quat
  /\ nth 0 (normalize_quaternions quat) [] = normalized (nth 0 quat [])
  /\ forall i, (S i < length quat)%nat ->
       flipped_when_closer
         (nth i (normalize_quaternions quat) [])
         (normalized (nth (S i) quat []))
         (nth (S i) (normalize_quaternions quat) []).
Proof.
  unfold normalize_quaternions, Np.normalize_rows.
  destruct quat as [|q0 rest]; [repeat split; intros i Hi; cbn in Hi; lia |].
  cbn [map].
  set (N := fun r : Np.vec => map (fun x => x / Np.norm r) r).
  repeat split.
  - cbn [length]. now rewrite length_resolve_ambiguities, length_map.
  - intros i Hi. cbn [length] in Hi.
    apply (@resolve_ambiguities_flips (map N rest) (N q0) i).
    + rewrite length_map. lia.
    + change (nth i (map N rest) [] = N (nth i rest [])).
      apply nth_map_lt. lia.
Qed.

(** C2 (amended). For every input sequence whose rows all have a norm other
    than zero, once [_fit_quaternion_spline] has normalized the array in
    place: there are as many rows as before; the first row is the row given
    over its norm; every later row is the row given over its norm,
    multiplied by -1 exactly when that is strictly closer to the processed
    row before it; every row has unit norm; every two consecutive rows
    [q_i], [q_i+1] have [||q_i+1 - q_i|| <= ||-q_i+1 - q_i||]; and the
    spline is fitted to these rows. *)
Theorem fit_quaternion_spline_normalizes (self : MocapTrajectory)
    (x : Np.vec) (quat : ref) (h : store) :
  (quat < length h)%nat ->
  Forall (fun q => Np.norm q <> 0) (load h quat) ->
  let self' := fst (_fit_quaternion_spline self x quat h) in
  let h' := snd (_fit_quaternion_spline self x quat h) in
  (length (load h' quat) = length (load h quat)
   /\ nth 0 (load h' quat) [] = normalized (nth 0 (load h quat) [])
   /\ forall i, (S i < length (load h quat))%nat ->
        flipped_when_closer
          (nth i (load h' quat) [])
          (normalized (nth (S i) (load h quat) []))
          (nth (S i) (load h' quat) []))
  /\ Forall unit_norm (load h' quat)
  /\ consecutive closer_sign (load h' quat)
  /\ _quat_spline self' = csaps x (Np.T (load h' quat)) (99999 / 100000).
Proof.
  intros Hr Hnz. cbv zeta.
  pose proof (fit_quaternion_spline_stores self x h Hr) as Hst.
  destruct (_fit_quaternion_spline self x quat h) as [self' h'].
  destruct Hst as [Hload Hsp]. cbn [fst snd]. rewrite Hload.
  destruct (normalize_quaternions_ok Hnz) as [Hu Hc].
  split; [apply normalize_quaternions_flips |].
  repeat split; try assumption. now rewrite <- Hload.
Qed.

(** C2 as stated fails: a row of zeros has no unit norm after the step (the
    quotient 0/0 is [nan] in numpy, and 0 here).  Two rows at two stamps,
    the first one of zeros. *)
Lemma fit_quaternion_spline_zero_row :
  ~ (forall (self : MocapTrajectory) (x : Np.vec) (quat : ref) (h : store),
       (quat < length h)%nat ->
       (1 <= length (load h quat))%nat ->
       Forall (fun q => length q = 4%nat) (load h quat) ->
       let h' := snd (_fit_quaternion_spline self x quat h) in
       Forall unit_norm (load h' quat)
       /\ consecutive closer_sign (load h' quat)).
Proof.
  intros H.
  specialize (H still [0; 1] 0%nat [[[0; 0; 0; 0]; [1; 0; 0; 0]]]).
  cbv zeta in H.
  destruct H as [Hu _]; [cbn; lia | cbn; lia | repeat constructor |].
  cbn [_fit_quaternion_spline snd load update set_item nth
       normalize_quaternions Np.normalize_rows map] in Hu.
  inversion Hu as [|? ? H0 _]; subst. unfold unit_norm, Np.norm in H0.
  replace (Np.dot _ _) with 0 in H0
    by (unfold Np.dot, Np.sum; cbn; unfold Rdiv; ring).
  rewrite sqrt_0 in H0. lra.
Qed.

(** *** The static-interval detector *)

Lemma length_set_slice {A} (lo hi : nat) (v : A) (l : list A) :
  length (set_slice lo hi v l) = length l.
Proof.
  revert lo hi. induction l as [|x l IH]; intros lo hi; [reflexivity |].
  destruct lo, hi; cbn; try reflexivity; now rewrite IH.
Qed.

Lemma nth_set_slice {A} (lo hi j : nat) (v d : A) (l : list A) :
  (j < length l)%nat ->
  nth j (set_slice lo hi v l) d
  = if ((lo <=? j) && (j <? hi))%nat then v else nth j l d.
Proof.
  revert lo hi j. induction l as [|x l IH]; intros lo hi j Hj; [cbn in Hj; lia |].
  destruct hi as [|hi].
  - replace ((lo <=? j) && (j <? 0))%nat with false
      by (symmetry; apply andb_false_intro2; apply Nat.ltb_ge; lia).
    destruct lo; reflexivity.
  - destruct lo as [|lo], j as [|j]; cbn [set_slice nth].
    + reflexivity.
    + rewrite IH by (cbn in Hj; lia). reflexivity.
    + reflexivity.
    + rewrite IH by (cbn in Hj; lia). reflexivity.
Qed.

Lemma nth_set_item {A} (i j : nat) (v d : A) (l : list A) :
  (j < length l)%nat ->
  nth j (set_item i v l) d = if (j =? i)%nat then v else nth j l d.
Proof.
  intros Hj. destruct (Nat.eqb_spec j i) as [-> | Hne].
  - now apply nth_set_item_same.
  - apply nth_set_item_other. congruence.
Qed.

Lemma length_static_step (self : MocapTrajectory) (h : nat) (thr : R)
    (m : list bool) (i : nat) :
  length (static_step self h thr m i) = length m.
Proof.
  unfold static_step. destruct (window_is_static self h thr i); [| reflexivity].
  destruct (i =? h)%nat; [| destruct (i =? _)%nat];
    rewrite ?length_set_slice, length_set_item; reflexivity.
Qed.

Lemma length_fold_static_step (self : MocapTrajectory) (h : nat) (thr : R)
    (l : list nat) (m : list bool) :
  length (fold_left (static_step self h thr) l m) = length m.
Proof.
  revert m. induction l as [|i l IH]; intros m; cbn; [reflexivity |].
  rewrite IH. apply length_static_step.
Qed.

Ltac split_comparisons :=
  repeat
    (match goal with
     | |- context [(?a <=? ?b)%nat] => destruct (Nat.leb_spec a b)
     | |- context [(?a <? ?b)%nat] => destruct (Nat.ltb_spec a b)
     | |- context [(?a =? ?b)%nat] => destruct (Nat.eqb_spec a b)
     end; try lia).

(** One iteration of the loop takes [mask_after i] to [mask_after (S i)]. *)
Lemma static_step_mask_after (self : MocapTrajectory) (h : nat) (thr : R)
    (m : list bool) (i : nat) :
  length m = length (stamps self) ->
  (h <= i < length (stamps self) - h)%nat ->
  (forall j, (j < length m)%nat -> nth j m false = mask_after self h thr i j) ->
  forall j, (j < length m)%nat ->
    nth j (static_step self h thr m i) false = mask_after self h thr (S i) j.
Proof.
  intros Hlen Hi IH j Hj. specialize (IH j Hj).
  unfold static_step, mask_after in *. rewrite <- Hlen in *.
  remember (length m - h - 1)%nat as e eqn:He.
  set (P := window_is_static self h thr) in *.
  destruct (P i) eqn:HPi.
  - destruct (Nat.eqb_spec i h) as [-> | Hih].
    + rewrite nth_set_slice by now rewrite length_set_item.
      rewrite nth_set_item by assumption. rewrite IH. clear IH.
      destruct (Nat.eq_dec j h) as [-> | Hjh].
      * rewrite HPi. split_comparisons; reflexivity.
      * destruct (Nat.eq_dec h e) as [<- | Hhe];
          rewrite ?HPi; split_comparisons;
          cbn; rewrite ?andb_false_r, ?orb_false_r; reflexivity.
    + destruct (Nat.eqb_spec i e) as [-> | Hie].
      * rewrite nth_set_slice by now rewrite length_set_item.
        rewrite nth_set_item by assumption. rewrite IH. clear IH.
        destruct (Nat.eq_dec j e) as [-> | Hje].
        -- rewrite HPi. split_comparisons; cbn;
             rewrite ?andb_true_r, ?orb_true_r; reflexivity.
        -- rewrite HPi. split_comparisons; cbn;
             rewrite ?andb_false_r, ?orb_false_r, ?andb_true_r, ?orb_true_r;
             reflexivity.
      * rewrite nth_set_item by assumption. rewrite IH. clear IH.
        destruct (Nat.eq_dec j i) as [-> | Hji].
        -- rewrite HPi. split_comparisons; cbn;
             rewrite ?andb_false_r, ?orb_false_r; reflexivity.
        -- split_comparisons; cbn;
             rewrite ?andb_false_r, ?orb_false_r; reflexivity.
  - rewrite IH. clear IH.
    destruct (Nat.eq_dec j i) as [-> | Hji].
    + rewrite HPi. destruct (Nat.eq_dec i e) as [<- | Hie];
        rewrite ?HPi; split_comparisons; cbn;
        rewrite ?andb_false_r, ?orb_false_r; reflexivity.
    + destruct (Nat.eq_dec i h) as [-> | Hih];
        [| destruct (Nat.eq_dec i e) as [-> | Hie]];
        rewrite ?HPi; split_comparisons; cbn;
        rewrite ?andb_false_r, ?orb_false_r; reflexivity.
Qed.

Lemma static_loop_prefix (self : MocapTrajectory) (h : nat) (thr : R) (n : nat) :
  (h + n <= length (stamps self) - h)%nat ->
  let m := fold_left (static_step self h thr) (seq h n)
             (repeat false (length (stamps self))) in
  length m = length (stamps self)
  /\ forall j, (j < length (stamps self))%nat ->
       nth j m false = mask_after self h thr (h + n) j.
Proof.
  cbv zeta. induction n as [|n IH]; intros Hn.
  - cbn [seq fold_left]. split; [apply repeat_length |].
    intros j Hj. rewrite nth_repeat. unfold mask_after.
    rewrite Nat.add_0_r. split_comparisons; cbn;
      rewrite ?andb_false_r; reflexivity.
  - destruct IH as [IHl IHn]; [lia |].
    rewrite seq_S, fold_left_app. cbn [fold_left].
    split; [now rewrite length_static_step |].
    intros j Hj. replace (h + S n)%nat with (S (h + n)) by lia.
    apply static_step_mask_after; try assumption; try lia.
    intros j' Hj'. apply IHn. lia.
Qed.

(** The whole loop: the mask has one flag per stamp, and the flag of sample
    [j] is [mask_after] at the end of the range. *)
Lemma static_loop_spec (self : MocapTrajectory) (h : nat) (thr : R) :
  let size := length (stamps self) in
  length (static_loop self h thr) = size
  /\ forall j, (j < size)%nat ->
       nth j (static_loop self h thr) false
       = mask_after self h thr (size - h) j.
Proof.
  cbv zeta. unfold static_loop.
  set (size := length (stamps self)).
  destruct (Nat.le_gt_cases (h + h) size) as [Hle | Hgt].
  - pose proof (static_loop_prefix self h thr (size - h - h)) as H.
    cbv zeta in H. fold size in H.
    replace (h + (size - h - h))%nat with (size - h)%nat in H by lia.
    apply H. lia.
  - replace (size - h - h)%nat with 0%nat by lia. cbn [seq fold_left].
    split; [apply repeat_length |].
    intros j Hj. rewrite nth_repeat. unfold mask_after. fold size.
    split_comparisons; cbn; rewrite ?andb_false_r; reflexivity.
Qed.

Lemma window_is_static_iff (self : MocapTrajectory) (h : nat) (thr : R)
    (i : nat) :
  window_is_static self h thr i = true
  <-> trace_below (slice (i - h) (i + h) (raw_position self)) thr.
Proof.
  unfold window_is_static, trace_below.
  destruct (cov _) as [c|].
  - destruct (Rlt_dec (trace c) thr) as [Hlt | Hge]; split.
    + intros _. now exists c.
    + reflexivity.
    + discriminate.
    + intros (c' & [= <-] & Hlt). contradiction.
  - split; [discriminate | intros (c & H & _); discriminate].
Qed.

(** The average frequency is the number of samples over the time they span. *)
Lemma average_freq_eq (self : MocapTrajectory) :
  stamps self <> [] ->
  last (stamps self) 0 <> hd 0 (stamps self) ->
  average_freq self
  = INR (length (stamps self)) / (last (stamps self) 0 - hd 0 (stamps self)).
Proof.
  intros Hne Hspan. unfold average_freq. field. split.
  - lra.
  - apply not_0_INR. destruct (stamps self); [congruence | discriminate].
Qed.

(** C3 (as the code has it). [get_static_mask] takes
    [freq = N / (t_last - t_first)] and the half-width
    [h = round(window_size / 2 * freq)]; an index [j] of
    [[h, N - h)] is marked if and only if the trace of the covariance of the
    position rows [[j - h, j + h)] is strictly below the squared threshold;
    an index of [[0, h)] is marked if and only if the window at [h] is
    static; an index from [N - h] on is marked if and only if the window at
    [N - h - 1] is static and [N - h - 1] is not [h]: the right-edge rule is
    an [elif] of the left-edge one, and is skipped when the last window is
    the first one as well, where the specification marks both edges. *)
Theorem get_static_mask_marks (self : MocapTrajectory)
    (window_size std_dev_threshold : R) :
  stamps self <> [] ->
  last (stamps self) 0 <> hd 0 (stamps self) ->
  let size := length (stamps self) in
  let freq := INR size / (last (stamps self) 0 - hd 0 (stamps self)) in
  (0 <= round (window_size / 2 * freq))%Z ->
  let h := Z.to_nat (round (window_size / 2 * freq)) in
  let static i :=
    trace_below (slice (i - h) (i + h) (raw_position self))
      (std_dev_threshold ^ 2) in
  let mask := get_static_mask self window_size std_dev_threshold in
  length mask = size
  /\ forall j, (j < size)%nat ->
       (nth j mask false = true
        <-> ((h <= j < size - h)%nat /\ static j)
            \/ ((j < h)%nat /\ (h < size - h)%nat /\ static h)
            \/ ((size - h <= j)%nat /\ (h < size - h - 1)%nat
                /\ static (size - h - 1)%nat)).
Proof.
  intros Hne Hspan size freq Hh h static mask.
  assert (Hm : mask = static_loop self h (std_dev_threshold ^ 2)).
  { subst mask h freq size. unfold get_static_mask, half_width.
    now rewrite average_freq_eq by assumption. }
  rewrite Hm. clear Hm mask.
  destruct (static_loop_spec self h (std_dev_threshold ^ 2)) as [Hlen Hnth].
  cbv zeta in Hlen, Hnth. fold size in Hlen, Hnth.
  split; [exact Hlen |].
  intros j Hj. rewrite (Hnth j Hj). unfold mask_after. fold size.
  subst static. cbv beta.
  rewrite <- !window_is_static_iff.
  set (P := window_is_static self h (std_dev_threshold ^ 2)).
  rewrite !orb_true_iff, !andb_true_iff.
  rewrite !Nat.leb_le, !Nat.ltb_lt.
  split.
  - intros [[[[H1 H2] H3] | [[H1 H2] H3]] | [[[H1 H2] H3] H4]].
    + left. auto.
    + right. left. auto.
    + destruct (Nat.eq_dec j (size - h - 1)) as [-> | Hne'].
      * left. split; [lia | assumption].
      * right. right. repeat split; try assumption; lia.
  - intros [[H1 H2] | [[H1 [H2 H3]] | [H1 [H2 H3]]]].
    + left. left. repeat split; try assumption; lia.
    + left. right. repeat split; assumption.
    + right. repeat split; try assumption; lia.
Qed.

(** [round] takes a number less than a half away from an integer to it. *)
Lemma round_near (x : R) (z : Z) :
  IZR z - 1 / 2 < x < IZR z + 1 / 2 -> round x = z.
Proof.
  intros [Hlo Hhi]. unfold round.
  destruct (archimed x) as [Hup1 Hup2].
  set (f := (up x - 1)%Z).
  assert (Hf : IZR f <= x < IZR f + 1).
  { subst f. rewrite minus_IZR. lra. }
  destruct (Rlt_dec (x - IZR f) (1 / 2)) as [Hd | Hd].
  - assert (H1 : (z - 1 < f)%Z) by (apply lt_IZR; rewrite minus_IZR; lra).
    assert (H2 : (f < z + 1)%Z) by (apply lt_IZR; rewrite plus_IZR; lra).
    lia.
  - destruct (Rlt_dec (1 / 2) (x - IZR f)) as [Hd' | Hd'].
    + assert (H1 : (z - 2 < f)%Z) by (apply lt_IZR; rewrite minus_IZR; lra).
      assert (H2 : (f < z)%Z) by (apply lt_IZR; lra).
      lia.
    + assert (Heq : x = IZR f + 1 / 2) by lra.
      assert (H1 : (z - 1 < f)%Z) by (apply lt_IZR; rewrite minus_IZR; lra).
      assert (H2 : (f < z)%Z) by (apply lt_IZR; lra).
      lia.
Qed.

Lemma still_half_width : half_width still 1 = 1%Z.
Proof.
  unfold half_width. apply round_near.
  unfold average_freq. cbn [still stamps __init__ fst last hd length INR].
  cbn. lra.
Qed.

Lemma still_window_static :
  window_is_static still 1 ((8 / 10000) ^ 2) 1 = true.
Proof.
  unfold window_is_static.
  cbn [still raw_position __init__ fst _fit_position_spline set_pos_spline
       _fit_quaternion_spline set_quat_spline set_static_mask].
  cbn [Nat.sub Nat.add slice skipn firstn].
  unfold cov, Np.T, Np.ncols. cbn [hd length seq map Np.col nth Nat.leb].
  destruct (Rlt_dec _ _) as [Hlt | Hge]; [reflexivity | exfalso; apply Hge].
  unfold trace, Np.scale, Np.matmul, Np.ncols, Np.dot, Np.sum, Np.col.
  cbn [Np.map2 map hd length seq nth fold_right INR].
  lra.
Qed.

(** The mask of three samples at rest: the single window, at index 1, is
    static and is the first one, so that the sample after it stays unmarked. *)
Lemma still_mask :
  get_static_mask still 1 (8 / 10000) = [true; true; false].
Proof.
  unfold get_static_mask. rewrite still_half_width.
  change (Z.to_nat 1) with 1%nat.
  unfold static_loop.
  change (length (stamps still)) with 3%nat.
  cbn [Nat.sub seq fold_left repeat].
  unfold static_step. rewrite still_window_static.
  reflexivity.
Qed.

(** C3 as stated fails of the code: a static window at [i = N - h - 1] does
    not mark the indices from [i] to the end when [i] is [h] as well.  Three
    samples at rest, one second apart, give [[True, True, False]]. *)
Lemma get_static_mask_last_window_is_first :
  ~ (forall (self : MocapTrajectory) (window_size std_dev_threshold : R),
       let size := length (stamps self) in
       let h := Z.to_nat (half_width self window_size) in
       let i := (size - h - 1)%nat in
       (h <= i < size - h)%nat ->
       trace_below (slice (i - h) (i + h) (raw_position self))
         (std_dev_threshold ^ 2) ->
       forall j, (i <= j < size)%nat ->
         nth j (get_static_mask self window_size std_dev_threshold) false
         = true).
Proof.
  intros H. specialize (H still 1 (8 / 10000)). cbv zeta in H.
  rewrite still_half_width in H.
  change (Z.to_nat 1) with 1%nat in H.
  change (length (stamps still)) with 3%nat in H.
  cbn [Nat.sub Nat.add] in H.
  specialize (H ltac:(lia)).
  pose proof still_window_static as Hs.
  apply window_is_static_iff in Hs. cbn [Nat.sub Nat.add] in Hs.
  specialize (H Hs 2%nat ltac:(lia)).
  rewrite still_mask in H. discriminate.
Qed.

(** The mask that the constructor stores is the detector run with a window
    of 1 s and a threshold of 0.0008. *)
Lemma init_static_mask (x : Np.vec) (pos : Np.matrix) (q : ref)
    (f : option String.string) (h : store) :
  let self := fst (__init__ x pos q f h) in
  static_mask self = get_static_mask self 1 (8 / 10000)
  /\ stamps self = x /\ raw_position self = pos.
Proof. cbv zeta. repeat split. Qed.

(** *** Nearest-sample lookup *)

Lemma x_bds_cons (a b : R) (r : Np.vec) :
  x_bds (a :: b :: r) = (b / 2 + a / 2) :: x_bds (b :: r).
Proof. reflexivity. Qed.

Lemma length_x_bds (x : Np.vec) : length (x_bds x) = (length x - 1)%nat.
Proof.
  induction x as [|a [|b r] IH]; try reflexivity.
  rewrite x_bds_cons. cbn [length] in *. rewrite IH. lia.
Qed.

Lemma searchsorted_le (a : Np.vec) (v : R) : (searchsorted a v <= length a)%nat.
Proof.
  induction a as [|x a IH]; cbn; [lia |].
  destruct (Rlt_dec x v); lia.
Qed.

Lemma x_new_index_eq (x : Np.vec) (t : R) :
  x_new_index x t = searchsorted (x_bds x) t.
Proof.
  unfold x_new_index. pose proof (searchsorted_le (x_bds x) t) as H.
  rewrite length_x_bds in H. lia.
Qed.

(** The sample that the search among the midpoints finds is not farther from
    [t] than any other. *)
Lemma searchsorted_nearest (x : Np.vec) (t : R) :
  StronglySorted Rlt x -> x <> [] ->
  forall z, In z x ->
    Rabs (nth (searchsorted (x_bds x) t) x 0 - t) <= Rabs (z - t).
Proof.
  intros Hs. induction Hs as [|a r Hr IH Ha]; intros Hne z Hz; [congruence |].
  destruct r as [|b r].
  - cbn in *. destruct Hz as [<- | []]. lra.
  - rewrite x_bds_cons. cbn [searchsorted].
    inversion Ha as [|? ? Hab Har]; subst.
    destruct (Rlt_dec (b / 2 + a / 2) t) as [Hlt | Hge].
    + cbn [nth]. destruct Hz as [<- | Hz].
      * apply Rle_trans with (Rabs (b - t)).
        -- apply IH; [discriminate | now left].
        -- unfold Rabs. destruct (Rcase_abs (b - t)), (Rcase_abs (a - t)); lra.
      * apply IH; [discriminate | assumption].
    + cbn [nth]. destruct Hz as [<- | Hz]; [lra |].
      assert (Hbz : b <= z).
      { destruct Hz as [<- | Hz]; [lra |].
        inversion Hr as [|? ? _ Hbr]; subst.
        rewrite Forall_forall in Hbr. left. now apply Hbr. }
      unfold Rabs. destruct (Rcase_abs (a - t)), (Rcase_abs (z - t)); lra.
Qed.

Lemma searchsorted_before_first (x : Np.vec) (t : R) :
  StronglySorted Rlt x -> t <= hd 0 x -> searchsorted (x_bds x) t = 0%nat.
Proof.
  intros Hs Ht. destruct x as [|a [|b r]]; try reflexivity.
  rewrite x_bds_cons. cbn [searchsorted hd] in *.
  inversion Hs as [|? ? _ Ha]; subst. inversion Ha as [|? ? Hab _]; subst.
  destruct (Rlt_dec (b / 2 + a / 2) t); [lra | reflexivity].
Qed.

Lemma sorted_le_last (x : Np.vec) :
  StronglySorted Rlt x -> forall z, In z x -> z <= last x 0.
Proof.
  intros Hs. induction Hs as [|a r Hr IH Ha]; intros z Hz; [destruct Hz |].
  destruct r as [|b r].
  - destruct Hz as [<- | []]. cbn. lra.
  - change (last (a :: b :: r) 0) with (last (b :: r) 0).
    destruct Hz as [<- | Hz]; [| now apply IH].
    inversion Ha as [|? ? Hab _]; subst.
    apply Rle_trans with b; [lra | apply IH; now left].
Qed.

Lemma searchsorted_after_last (x : Np.vec) (t : R) :
  StronglySorted Rlt x -> last x 0 <= t ->
  searchsorted (x_bds x) t = (length x - 1)%nat.
Proof.
  intros Hs. induction Hs as [|a r Hr IH Ha]; intros Ht; [reflexivity |].
  destruct r as [|b r]; [reflexivity |].
  rewrite x_bds_cons. cbn [searchsorted].
  change (last (a :: b :: r) 0) with (last (b :: r) 0) in Ht.
  inversion Ha as [|? ? Hab _]; subst.
  pose proof (sorted_le_last Hr b (or_introl eq_refl)) as Hb.
  destruct (Rlt_dec (b / 2 + a / 2) t) as [_ | Hge]; [| lra].
  rewrite IH by assumption. cbn [length]. lia.
Qed.

(** The index that [interp1d] returns for the stamps and their indexes. *)
Lemma nearest_time_idx (x : Np.vec) (t : R) :
  StronglySorted Rlt x -> x <> [] ->
  let i := interp1d_nearest x (seq 0 (length x)) t in
  nearest_sample x t i
  /\ (t <= hd 0 x -> i = 0%nat)
  /\ (last x 0 <= t -> i = (length x - 1)%nat).
Proof.
  intros Hs Hne. cbv zeta. unfold interp1d_nearest.
  rewrite x_new_index_eq.
  pose proof (searchsorted_le (x_bds x) t) as Hle.
  rewrite length_x_bds in Hle.
  assert (Hlt : (searchsorted (x_bds x) t < length x)%nat).
  { destruct x; [congruence | cbn [length] in *; lia]. }
  rewrite seq_nth by assumption. cbn [Nat.add].
  repeat split.
  - assumption.
  - intros j Hj. apply searchsorted_nearest; try assumption.
    now apply nth_In.
  - now apply searchsorted_before_first.
  - now apply searchsorted_after_last.
Qed.

(** The detector reads the stamps and the raw positions, and nothing else. *)
Lemma get_static_mask_reads (t t' : MocapTrajectory)
    (window_size std_dev_threshold : R) :
  stamps t = stamps t' -> raw_position t = raw_position t' ->
  get_static_mask t window_size std_dev_threshold
  = get_static_mask t' window_size std_dev_threshold.
Proof.
  destruct t, t'. cbn [stamps raw_position]. intros -> ->. reflexivity.
Qed.

(** C8. For every query time, before the first stamp and after the last one
    too, [is_static] returns the stored flag of a sample nearest to it, the
    first or the last sample at the boundaries.  The constructor, given
    samples it accepts, keeps the stamps and the positions it is given, and
    the flags it stores are those of the detector run on them with a window
    of 1 s and a threshold of 0.0008.  The call only looks the flags up: it reads the stamps and the
    stored flags, and nothing else. *)
Theorem is_static_looks_up_nearest (self : MocapTrajectory) (query : Np.vec) :
  StronglySorted Rlt (stamps self) ->
  stamps self <> [] ->
  Forall2
    (fun t flag =>
       exists i,
         nearest_sample (stamps self) t i
         /\ flag = nth i (static_mask self) false
         /\ (t <= hd 0 (stamps self) -> i = 0%nat)
         /\ (last (stamps self) 0 <= t -> i = (length (stamps self) - 1)%nat))
    query (is_static self query)
  /\ (forall x pos q f h,
        sampled x pos (load h q) ->
        stamps (fst (__init__ x pos q f h)) = x
        /\ raw_position (fst (__init__ x pos q f h)) = pos
        /\ static_mask (fst (__init__ x pos q f h))
           = get_static_mask (fst (__init__ x pos q f h)) 1 (8 / 10000)
        /\ forall t, stamps t = x -> raw_position t = pos ->
             static_mask (fst (__init__ x pos q f h))
             = get_static_mask t 1 (8 / 10000))
  /\ (forall self',
        stamps self' = stamps self -> static_mask self' = static_mask self ->
        is_static self' query = is_static self query).
Proof.
  intros Hs Hne. split; [| split].
  - unfold is_static.
    induction query as [|t query IH]; cbn [map]; constructor.
    + exists (interp1d_nearest (stamps self) (seq 0 (length (stamps self))) t).
      destruct (nearest_time_idx t Hs Hne) as (H1 & H2 & H3).
      repeat split; try assumption; apply H1.
    + exact IH.
  - intros x pos q f h _. repeat split.
    intros t Hx Hp. destruct (init_static_mask x pos q f h) as (Hm & Hsx & Hsp).
    rewrite Hm. apply get_static_mask_reads; congruence.
  - intros self' Hx Hm. unfold is_static. now rewrite Hx, Hm.
Qed.

(** *** Reading a bag *)

(** [from_bag] raises exactly when more than one topic is left after its
    two filters, whatever [topic] is. *)
Lemma from_bag_raises_iff (bag : Bag) (body_id : String.string)
    (topic : option String.string) (h : store) :
  (exists exc, from_bag bag body_id topic h = Raise exc)
  <-> (1 < length (candidate_topics bag body_id))%nat.
Proof.
  unfold from_bag. fold (candidate_topics bag body_id).
  destruct (Nat.ltb_spec 1 (length (candidate_topics bag body_id))) as [H | H].
  - split; [intros _; exact H | intros _; eexists; reflexivity].
  - split; [intros [exc Hx]; discriminate | lia].
Qed.

Lemma from_bag_ignores_topic (bag : Bag) (body_id : String.string)
    (topic topic' : option String.string) (h : store) :
  from_bag bag body_id topic h = from_bag bag body_id topic' h.
Proof. reflexivity. Qed.

(** C9 (as the code has it). With two candidate topics in the bag,
    [from_bag] raises [ValueError] even when [topic] names one of them: the
    argument is never read. *)
Theorem from_bag_raises_despite_topic (h : store) :
  from_bag two_streams "ifo001"
    (Some "/a/ifo001/vrpn_client_node/ifo001/pose"%string) h
  = Raise "ValueError"%string.
Proof. reflexivity. Qed.

(** *** Further properties of the queries *)

Lemma map_seq_table {A B} (G : nat -> B) (F : A -> B) (l : list A) (d : A) :
  (forall i, (i < length l)%nat -> G i = F (nth i l d)) ->
  map G (seq 0 (length l)) = map F l.
Proof.
  intros H. rewrite <- (map_seq_nth F l d). apply map_ext_in.
  intros i Hi. apply in_seq in Hi. apply H. lia.
Qed.

(** X1. [position], [velocity] and [acceleration] return one row per query
    time, in the order of the query: the value at that time of the position
    spline and of its first and second derivative, three numbers each. *)
Theorem position_queries_by_row (self : MocapTrajectory) (query : Np.vec) :
  well_shaped self ->
  (position self query = map (position_at self) query
   /\ velocity self query = map (velocity_at self) query
   /\ acceleration self query = map (acceleration_at self) query)
  /\ Forall (fun r => length r = 3%nat)
       (position self query ++ velocity self query ++ acceleration self query).
Proof.
  intros Hw. destruct (well_shaped_channels Hw) as [Hp _].
  unfold position, velocity, acceleration.
  rewrite !spline_call_T by assumption.
  split; [repeat split |].
  rewrite !Forall_app, !Forall_map.
  repeat split; apply Forall_forall; intros t _;
    rewrite spline_at_length; apply Hw.
Qed.

(** X2. [quaternion] returns one row per query time, and each row has unit
    norm wherever the value of the orientation spline is not the zero
    vector. *)
Theorem quaternion_rows_have_unit_norm (self : MocapTrajectory)
    (query : Np.vec) :
  sp_y (_quat_spline self) <> [] ->
  Forall (fun t => Np.norm (spline_at (_quat_spline self) 0 t) <> 0) query ->
  length (quaternion self query) = length query
  /\ Forall unit_norm (quaternion self query).
Proof.
  intros H Hnz. rewrite quaternion_rows by assumption.
  split; [apply length_map |].
  rewrite Forall_map. eapply Forall_impl; [| exact Hnz].
  intros t Ht. now apply normalized_unit.
Qed.

Lemma pose_matrix_rows (self : MocapTrajectory) (query : Np.vec) :
  well_shaped self ->
  pose_matrix self query
  = map (fun t => SE3_from_components (rot_at self t) (position_at self t))
        query.
Proof.
  intros Hw. destruct (well_shaped_channels Hw) as [Hp Hq].
  unfold pose_matrix, position.
  rewrite !spline_call_T, rot_matrix_rows by assumption.
  rewrite !length_map. apply (map_seq_table _ _ query 0). intros i Hi.
  rewrite (@nth_map_lt _ _ _ query i 0) by assumption.
  rewrite (@nth_map_lt _ _ _ query i 0) by assumption. reflexivity.
Qed.

Lemma extended_pose_matrix_rows (self : MocapTrajectory) (query : Np.vec) :
  well_shaped self ->
  extended_pose_matrix self query
  = map (fun t =>
           SE23_from_components (rot_at self t) (velocity_at self t)
             (position_at self t))
        query.
Proof.
  intros Hw. destruct (well_shaped_channels Hw) as [Hp Hq].
  unfold extended_pose_matrix, position, velocity.
  rewrite !spline_call_T, rot_matrix_rows by assumption.
  rewrite !length_map. apply (map_seq_table _ _ query 0). intros i Hi.
  rewrite (@nth_map_lt _ _ _ query i 0) by assumption.
  rewrite (@nth_map_lt _ _ _ query i 0) by assumption.
  rewrite (@nth_map_lt _ _ _ query i 0) by assumption. reflexivity.
Qed.

(** X3. [pose_matrix] and [extended_pose_matrix] return one matrix per query
    time: [from_components] of the rotation, (the velocity) and the position
    that [rot_matrix], [velocity] and [position] give at that same time. *)
Theorem pose_matrices_by_query (self : MocapTrajectory) (query : Np.vec) :
  well_shaped self ->
  pose_matrix self query
  = map (fun t => SE3_from_components (rot_at self t) (position_at self t))
        query
  /\ extended_pose_matrix self query
     = map (fun t =>
              SE23_from_components (rot_at self t) (velocity_at self t)
                (position_at self t))
           query.
Proof.
  intros Hw. split;
    [now apply pose_matrix_rows | now apply extended_pose_matrix_rows].
Qed.

(** X4. [to_pynav] returns one state per query time, in order: an
    [SE3State], or an [SE23State] when [extended_pose] is set, whose value is
    the pose at that time, whose stamp is the query time and whose state ID
    is the trajectory's [frame_id]. *)
Theorem to_pynav_one_state_per_query (self : MocapTrajectory)
    (query : Np.vec) :
  well_shaped self ->
  to_pynav self query false
  = map (fun t =>
           SE3State (SE3_from_components (rot_at self t) (position_at self t))
             t (frame_id self))
        query
  /\ to_pynav self query true
     = map (fun t =>
              SE23State
                (SE23_from_components (rot_at self t) (velocity_at self t)
                   (position_at self t))
                t (frame_id self))
           query.
Proof.
  intros Hw. unfold to_pynav.
  rewrite pose_matrix_rows, extended_pose_matrix_rows by assumption.
  split; apply (map_seq_table _ _ query 0); intros i Hi;
    rewrite (@nth_map_lt _ _ _ query i 0) by assumption; reflexivity.
Qed.

(** X5. With two query times or more, the entry of [body_velocity] in row
    [k] and column [i] is coordinate [k] of the body-frame velocity at query
    time [i]: the transposed rotation at that time applied to the velocity
    at that time. *)
Theorem body_velocity_entries (self : MocapTrajectory) (query : Np.vec) :
  well_shaped self ->
  (forall q, Np.ncols (from_quat q) = 3%nat) ->
  (2 <= length query)%nat ->
  forall k i, (k < 3)%nat -> (i < length query)%nat ->
    nth i (nth k (Np.atleast_2d (body_velocity self query)) []) 0
    = nth k (matvec (Np.T (rot_at self (nth i query 0)))
               (velocity_at self (nth i query 0))) 0.
Proof.
  intros Hw Hq HN k i Hk Hi. rewrite body_velocity_transposed by assumption.
  cbn [Np.atleast_2d].
  set (F := fun t => matvec (Np.T (rot_at self t)) (velocity_at self t)).
  assert (Hc : Np.ncols (map F query) = 3%nat).
  { destruct query as [|t0 query]; [cbn in HN; lia |].
    unfold Np.ncols. cbn [map hd]. unfold F.
    rewrite length_matvec, length_T. apply Hq. }
  unfold Np.T. rewrite Hc.
  rewrite (@nth_map_lt _ _ _ (seq 0 3) k 0%nat) by (rewrite length_seq; lia).
  rewrite seq_nth by lia. cbn [Nat.add]. unfold Np.col.
  rewrite (@nth_map_lt _ _ _ (map F query) i [])
    by (rewrite length_map; lia).
  now rewrite (@nth_map_lt _ _ _ query i 0) by assumption.
Qed.

(** X6. At a single query time [squeeze] leaves a flat vector, which [.T]
    does not change: [body_velocity] returns the three coordinates of the
    body-frame velocity. *)
Theorem body_velocity_single_query (self : MocapTrajectory) (t : R) :
  well_shaped self ->
  body_velocity self [t]
  = Np.Arr1 (matvec (Np.T (rot_at self t)) (velocity_at self t)).
Proof.
  intros Hw. unfold body_velocity, Np.squeeze.
  rewrite body_velocity_rows by assumption. reflexivity.
Qed.

Lemma accelerometer_rows (self : MocapTrajectory) (query : Np.vec)
    (g : Np.vec) :
  well_shaped self -> length g = 3%nat ->
  map Np.ravel
    (Np.matmul3 (Np.transpose_021 (rot_matrix self query))
       (map (fun a => Np.sub a (Np.column g))
          (Np.expand_dims_2 (Np.T (spline_call (_pos_spline self) query 2)))))
  = map (fun t =>
           matvec (Np.T (rot_at self t)) (vsub (acceleration_at self t) g))
        query.
Proof.
  intros Hw Hg. destruct (well_shaped_channels Hw) as [Hp Hq].
  rewrite spline_call_T by assumption.
  rewrite rot_matrix_rows by assumption.
  unfold Np.transpose_021, Np.expand_dims_2, Np.matmul3.
  rewrite !map_map, map2_map_map, map_map.
  apply map_ext. intros t. rewrite sub_column.
  rewrite matmul_column; [reflexivity |].
  intros E. apply (f_equal (@length R)) in E.
  rewrite vsub_length in E.
  - rewrite spline_at_length in E. destruct Hw as [Hp3 _].
    rewrite Hp3 in E. discriminate.
  - rewrite spline_at_length. destruct Hw as [Hp3 _]. congruence.
Qed.

(** X7. [accelerometer] returns an array of shape (N, 3), one row per query
    time, for two query times or more, and of shape (3,) for a single one. *)
Theorem accelerometer_shape (self : MocapTrajectory) (query : Np.vec)
    (g_a : option Np.vec) :
  well_shaped self ->
  (forall q, Np.ncols (from_quat q) = 3%nat) ->
  (forall g, g_a = Some g -> length g = 3%nat) ->
  (1 <= length query)%nat ->
  Np.shape (accelerometer self query g_a)
  = if (length query =? 1)%nat then [3%nat] else [length query; 3%nat].
Proof.
  intros Hw Hq Hg HN. unfold accelerometer.
  set (g := match g_a with None => default_gravity | Some g => g end).
  assert (Hlen : length g = 3%nat).
  { subst g. destruct g_a as [g|]; [now apply Hg | reflexivity]. }
  unfold Np.squeeze. rewrite accelerometer_rows by assumption.
  destruct query as [|t0 [|t1 query]]; [cbn in HN; lia | |];
    cbn [map length Nat.eqb Np.shape hd];
    rewrite length_matvec, length_T; unfold rot_at;
    rewrite Hq, ?length_map; reflexivity.
Qed.

(** *** Further properties of the quaternion normalizer and the constructor *)

Lemma resolve_ambiguities_rows (rest : Np.matrix) :
  forall q_old,
    Forall2 rescaled_or_flipped rest
      (resolve_ambiguities q_old (Np.normalize_rows rest)).
Proof.
  induction rest as [|q rest IH]; intros q_old; cbn; constructor.
  - destruct (Rlt_dec _ _); [right; apply flip_is_vneg | left; reflexivity].
  - apply IH.
Qed.

(** X8. The normalizer only rescales and flips: it returns as many rows as
    it was given, and each is the row it came from over its norm, or the
    opposite of that.  The first row is never flipped. *)
Theorem normalize_quaternions_rescales_or_flips (quat : Np.matrix) :
  Forall2 rescaled_or_flipped quat (normalize_quaternions quat)
  /\ hd [] (normalize_quaternions quat) = hd [] (Np.normalize_rows quat).
Proof.
  unfold normalize_quaternions.
  destruct quat as [|q0 quat]; cbn; split; try reflexivity; constructor.
  - left. reflexivity.
  - apply resolve_ambiguities_rows.
Qed.

Lemma normalize_rows_unit (quat : Np.matrix) :
  Forall unit_norm quat -> Np.normalize_rows quat = quat.
Proof.
  unfold Np.normalize_rows. induction 1 as [|q quat Hq _ IH]; cbn;
    [reflexivity |].
  rewrite IH. f_equal. rewrite Hq. rewrite <- (map_id q) at 2.
  apply map_ext. intros x. field.
Qed.

Lemma resolve_ambiguities_fixed (rest : Np.matrix) :
  forall q_old,
    consecutive closer_sign (q_old :: rest) ->
    resolve_ambiguities q_old rest = rest.
Proof.
  induction rest as [|q rest IH]; intros q_old Hc; [reflexivity |].
  cbn [consecutive] in Hc. destruct Hc as [Hq Hc].
  cbn [resolve_ambiguities].
  destruct (Rlt_dec _ _) as [Hlt | _].
  - unfold closer_sign in Hq. lra.
  - f_equal. now apply IH.
Qed.

Lemma normalize_quaternions_fixed (quat : Np.matrix) :
  Forall unit_norm quat -> consecutive closer_sign quat ->
  normalize_quaternions quat = quat.
Proof.
  intros Hu Hc. unfold normalize_quaternions.
  rewrite normalize_rows_unit by assumption.
  destruct quat as [|q0 rest]; [reflexivity |].
  f_equal. now apply resolve_ambiguities_fixed.
Qed.

Lemma set_item_twice {A} (i : nat) (v w : A) (l : list A) :
  set_item i v (set_item i w l) = set_item i v l.
Proof.
  revert i. induction l as [|x l IH]; intros [|i]; cbn; try reflexivity.
  now rewrite IH.
Qed.

(** X9. Normalizing twice is normalizing once: on rows of non-zero norm the
    normalizer leaves its own output as it is, so that fitting the
    orientation spline again to an array it has already processed changes
    neither the array nor the spline. *)
Theorem fit_quaternion_spline_twice (self : MocapTrajectory)
    (x : Np.vec) (quat : ref) (h : store) :
  (quat < length h)%nat ->
  Forall (fun q => Np.norm q <> 0) (load h quat) ->
  let '(self1, h1) := _fit_quaternion_spline self x quat h in
  let '(self2, h2) := _fit_quaternion_spline self1 x quat h1 in
  h2 = h1 /\ self2 = self1.
Proof.
  intros Hr Hnz. unfold _fit_quaternion_spline.
  rewrite !load_update_same
    by (rewrite ?length_set_item; unfold update; rewrite ?length_set_item;
        assumption).
  destruct (normalize_quaternions_ok Hnz) as [Hu Hc].
  rewrite (normalize_quaternions_fixed Hu Hc).
  split; [apply set_item_twice | reflexivity].
Qed.

Lemma sampled_ncols (x : Np.vec) (pos quat : Np.matrix) :
  sampled x pos quat -> Np.ncols pos = 3%nat /\ Np.ncols quat = 4%nat.
Proof.
  intros (_ & HN & Hlp & Hp & Hlq & Hq). unfold Np.ncols.
  destruct pos as [|p pos]; [cbn in Hlp; lia |].
  destruct quat as [|q quat]; [cbn in Hlq; lia |].
  inversion Hp; inversion Hq; subst. split; assumption.
Qed.

(** X10. The constructor keeps the stamps, the positions and the frame ID it
    is given and holds the caller's quaternion array itself, which it leaves
    normalized: rows of unit norm, wherever the rows given have a norm other
    than zero.  No other array is touched.  The splines are fitted to the
    positions and to the normalized quaternions and have three and four
    channels, and the mask has one flag per stamp. *)
Theorem init_establishes_invariants (x : Np.vec) (pos : Np.matrix) (q : ref)
    (f : option String.string) (h : store) :
  (q < length h)%nat ->
  sampled x pos (load h q) ->
  Forall (fun r => Np.norm r <> 0) (load h q) ->
  let '(self, h') := __init__ x pos q f h in
  (stamps self = x /\ raw_position self = pos /\ raw_quaternion self = q
   /\ frame_id self = f)
  /\ (load h' q = normalize_quaternions (load h q)
      /\ Forall unit_norm (load h' q)
      /\ forall r, r <> q -> load h' r = load h r)
  /\ (_pos_spline self = csaps x (Np.T pos) (9999 / 10000)
      /\ _quat_spline self = csaps x (Np.T (load h' q)) (99999 / 100000)
      /\ well_shaped self)
  /\ length (static_mask self) = length x.
Proof.
  intros Hq Hs Hnz. destruct (sampled_ncols Hs) as [Hc3 Hc4].
  unfold __init__, _fit_quaternion_spline.
  cbn [raw_quaternion raw_position _fit_position_spline set_pos_spline].
  rewrite load_update_same by assumption.
  destruct (normalize_quaternions_ok Hnz) as [Hu _].
  repeat split; try assumption.
  - intros r Hr. apply load_update_other. congruence.
  - cbn [set_static_mask set_quat_spline _fit_position_spline set_pos_spline
         _pos_spline csaps sp_y].
    now rewrite length_T.
  - cbn [set_static_mask set_quat_spline _fit_position_spline set_pos_spline
         _quat_spline csaps sp_y].
    now rewrite length_T, ncols_normalize_quaternions.
  - cbn [static_mask set_static_mask]. unfold get_static_mask.
    match goal with
    | |- length (static_loop ?s ?k ?t) = _ =>
        destruct (static_loop_spec s k t) as [Hl _]; exact Hl
    end.
Qed.

(** X11. After either rotation the splines still have three and four
    channels, so that every query goes on as before: the trajectory has a
    stamp at least, [SO3.to_quat] returns four numbers and the world rotation
    is a 3 x 3 array. *)
Theorem rotations_keep_splines_well_shaped (self : MocapTrajectory)
    (C : Np.matrix) (h : store) :
  well_shaped self ->
  stamps self <> [] ->
  (forall M, length (Np.ravel (to_quat M)) = 4%nat) ->
  well_shaped (fst (rotate_body_frame self C h))
  /\ (is_3x3 C -> well_shaped (fst (rotate_world_frame self C h))).
Proof.
  intros Hw Hne Hto. destruct (well_shaped_channels Hw) as [Hp Hq].
  assert (H4 : forall F : Np.matrix -> Np.matrix,
             length (Np.T (normalize_quaternions
                       (map (fun M => Np.ravel (to_quat (F M)))
                            (rot_matrix self (stamps self))))) = 4%nat).
  { intros F. rewrite length_T, ncols_normalize_quaternions.
    rewrite rot_matrix_rows by assumption. unfold Np.ncols.
    destruct (stamps self) as [|t0 x]; [congruence |]. cbn [map hd].
    apply Hto. }
  split.
  - unfold rotate_body_frame.
    rewrite map_map.
    match goal with
    | |- context [alloc h ?q] =>
        pose proof (fit_fresh_quaternions self (stamps self) q h) as Hfit;
        destruct (alloc h q) as [r h1]
    end.
    destruct (_fit_quaternion_spline self (stamps self) r h1) as [b h'].
    destruct Hfit as [-> _]. cbn [fst]. split; [apply Hw |].
    cbn [_quat_spline set_quat_spline csaps sp_y].
    apply (H4 (fun M => Np.matmul M (Np.T C))).
  - intros HC. unfold rotate_world_frame. rewrite map_map.
    rewrite T_matmul_T_position
      by (try assumption; now apply is_3x3_T_nonempty).
    match goal with
    | |- context [alloc h ?q] =>
        match goal with
        | |- context [_fit_quaternion_spline ?s ?x _ _] =>
            pose proof (fit_fresh_quaternions s x q h) as Hfit
        end;
        destruct (alloc h q) as [r h1]
    end.
    cbn [_fit_position_spline set_pos_spline stamps] in *.
    match goal with
    | |- context [_fit_quaternion_spline ?s ?x r h1] =>
        destruct (_fit_quaternion_spline s x r h1) as [w h']
    end.
    destruct Hfit as [-> _]. cbn [fst]. split.
    + cbn [_pos_spline set_quat_spline _fit_position_spline set_pos_spline
           csaps sp_y].
      rewrite length_T.
      unfold Np.ncols. destruct (stamps self) as [|t0 x]; [congruence |].
      cbn [map hd]. rewrite length_matvec, length_T.
      destruct HC as [Hl Hr]. destruct C as [|c0 C]; [discriminate |].
      inversion Hr; subst. assumption.
    + cbn [_quat_spline set_quat_spline _fit_position_spline set_pos_spline
           csaps sp_y].
      apply (H4 (fun M => Np.matmul (Np.T C) M)).
Qed.

(** *** Further properties of the static-interval detector *)

(** A loop that finds no static window leaves every flag False. *)
Lemma static_loop_none (self : MocapTrajectory) (h : nat) (thr : R) :
  (forall i, window_is_static self h thr i = false) ->
  static_loop self h thr = repeat false (length (stamps self)).
Proof.
  intros Hn. destruct (static_loop_spec self h thr) as [Hl Hnth].
  apply nth_ext with (d := false) (d' := false).
  - now rewrite repeat_length.
  - intros j Hj. rewrite Hl in Hj. rewrite (Hnth j Hj), nth_repeat.
    unfold mask_after. rewrite !Hn. now rewrite !andb_false_r.
Qed.

Lemma window_is_static_empty (self : MocapTrajectory) (thr : R) (i : nat) :
  window_is_static self 0 thr i = false.
Proof.
  unfold window_is_static, slice.
  replace (i + 0 - (i - 0))%nat with 0%nat by lia. reflexivity.
Qed.

(** X12. [get_static_mask] returns one flag per stamp, whatever the window
    and the threshold. *)
Theorem get_static_mask_one_flag_per_stamp (self : MocapTrajectory)
    (window_size std_dev_threshold : R) :
  length (get_static_mask self window_size std_dev_threshold)
  = length (stamps self).
Proof.
  unfold get_static_mask.
  match goal with
  | |- length (static_loop ?s ?k ?t) = _ =>
      destruct (static_loop_spec s k t) as [Hl _]; exact Hl
  end.
Qed.

(** X13. When the half-width rounds to 0 every window is empty, and when
    twice the half-width is the number of samples or more there is no window
    at all: in both cases no sample is marked static. *)
Theorem get_static_mask_without_window (self : MocapTrajectory)
    (window_size std_dev_threshold : R) :
  window_defined self window_size ->
  (Z.to_nat (half_width self window_size) = 0
   \/ length (stamps self) <= 2 * Z.to_nat (half_width self window_size))%nat ->
  get_static_mask self window_size std_dev_threshold
  = repeat false (length (stamps self)).
Proof.
  intros _ Hh. unfold get_static_mask.
  set (h := Z.to_nat (half_width self window_size)) in *.
  destruct Hh as [-> | Hh].
  - apply static_loop_none. intros i. apply window_is_static_empty.
  - unfold static_loop.
    replace (length (stamps self) - h - h)%nat with 0%nat by lia.
    reflexivity.
Qed.

Lemma window_is_static_mono (self : MocapTrajectory) (h : nat)
    (thr1 thr2 : R) (i : nat) :
  thr1 <= thr2 ->
  window_is_static self h thr1 i = true ->
  window_is_static self h thr2 i = true.
Proof.
  intros Hle. unfold window_is_static.
  destruct (cov _) as [c|]; [| discriminate].
  destruct (Rlt_dec (trace c) thr1), (Rlt_dec (trace c) thr2);
    try reflexivity; try discriminate. lra.
Qed.

(** X14. Raising the threshold never clears a flag: a sample marked static
    under a threshold is marked under every threshold whose square is not
    smaller. *)
Theorem get_static_mask_monotone (self : MocapTrajectory)
    (window_size thr1 thr2 : R) (j : nat) :
  window_defined self window_size ->
  thr1 ^ 2 <= thr2 ^ 2 ->
  nth j (get_static_mask self window_size thr1) false = true ->
  nth j (get_static_mask self window_size thr2) false = true.
Proof.
  intros _ Hle. unfold get_static_mask.
  set (h := Z.to_nat (half_width self window_size)).
  destruct (static_loop_spec self h (thr1 ^ 2)) as [Hl1 Hn1].
  destruct (static_loop_spec self h (thr2 ^ 2)) as [Hl2 Hn2].
  destruct (Nat.lt_ge_cases j (length (stamps self))) as [Hj | Hj].
  - rewrite (Hn1 j Hj), (Hn2 j Hj). unfold mask_after.
    pose proof (@window_is_static_mono self h _ _ j Hle) as Mj.
    pose proof (@window_is_static_mono self h _ _ h Hle) as Mh.
    pose proof (@window_is_static_mono self h _ _
                  (length (stamps self) - h - 1) Hle) as Me.
    rewrite !orb_true_iff, !andb_true_iff. tauto.
  - rewrite nth_overflow by lia. discriminate.
Qed.

Lemma searchsorted_at_sample (x : Np.vec) :
  StronglySorted Rlt x ->
  forall i, (i < length x)%nat -> searchsorted (x_bds x) (nth i x 0) = i.
Proof.
  intros Hs. induction Hs as [|a r Hr IH Ha]; intros i Hi; [cbn in Hi; lia |].
  destruct r as [|b r].
  - cbn in *. lia.
  - rewrite x_bds_cons. cbn [searchsorted].
    inversion Ha as [|? ? Hab Har]; subst.
    destruct i as [|i].
    + cbn [nth]. destruct (Rlt_dec (b / 2 + a / 2) a); [lra | reflexivity].
    + change (nth (S i) (a :: b :: r) 0) with (nth i (b :: r) 0).
      assert (Hb : b <= nth i (b :: r) 0).
      { destruct i as [|i]; [cbn; lra |]. cbn [nth].
        inversion Hr as [|? ? _ Hbr]; subst.
        rewrite Forall_forall in Hbr. left. apply Hbr, nth_In.
        cbn in Hi. lia. }
      destruct (Rlt_dec (b / 2 + a / 2) (nth i (b :: r) 0)) as [_ | Hn];
        [| lra].
      f_equal. apply IH. cbn in *. lia.
Qed.

(** X15. Asked at the trajectory's own stamps, [is_static] returns the stored
    mask: each stamp is its own nearest sample.  The stamps are strictly
    increasing and the mask has one flag per stamp. *)
Theorem is_static_at_own_stamps (self : MocapTrajectory) :
  stamps self <> [] ->
  StronglySorted Rlt (stamps self) ->
  length (static_mask self) = length (stamps self) ->
  is_static self (stamps self) = static_mask self.
Proof.
  intros _ Hs Hl. unfold is_static, interp1d_nearest.
  etransitivity; [| apply map_id].
  rewrite <- (map_seq_nth (fun b => b) (static_mask self) false).
  rewrite Hl. symmetry. apply (map_seq_table _ _ (stamps self) 0).
  intros i Hi.
  rewrite x_new_index_eq, searchsorted_at_sample by assumption.
  now rewrite seq_nth by assumption.
Qed.

(** The covariance of a window. *)

Lemma map2_self_map {A B C} (f : A -> B -> C) (g : A -> B) (l : list A) :
  Np.map2 f l (map g l) = map (fun t => f t (g t)) l.
Proof. induction l as [|a l IH]; cbn; [reflexivity | now rewrite IH]. Qed.

Lemma sum_nonneg (l : Np.vec) : Forall (fun v => 0 <= v) l -> 0 <= Np.sum l.
Proof. unfold Np.sum. induction 1; cbn; lra. Qed.

Lemma sum_map_scale {A} (k : R) (f : A -> R) (l : list A) :
  Np.sum (map (fun i => k * f i) l) = k * Np.sum (map f l).
Proof.
  unfold Np.sum. induction l as [|a l IH]; cbn; [ring | rewrite IH; ring].
Qed.

Lemma nth_map_Rmult (k : R) (r : Np.vec) (i : nat) :
  nth i (map (Rmult k) r) 0 = k * nth i r 0.
Proof.
  revert i. induction r as [|x r IH]; intros [|i]; cbn; try ring. apply IH.
Qed.

Lemma trace_scale (k : R) (c : Np.matrix) :
  trace (Np.scale k c) = k * trace c.
Proof.
  unfold trace, Np.scale. rewrite length_map, <- sum_map_scale.
  f_equal. apply map_ext_in. intros i Hi. apply in_seq in Hi.
  rewrite (@nth_map_lt _ _ _ c i []) by lia. apply nth_map_Rmult.
Qed.

Lemma col_T (m : Np.matrix) (i : nat) :
  (i < length m)%nat -> length (nth i m []) = Np.ncols m ->
  Np.col i (Np.T m) = nth i m [].
Proof.
  intros Hi Hl. unfold Np.col, Np.T. rewrite map_map, <- Hl.
  etransitivity; [| apply map_id].
  apply (map_seq_table _ _ (nth i m []) 0). intros j Hj.
  now apply (@nth_map_lt _ _ (fun r => nth j r 0) m i [] 0).
Qed.

(** The trace of [X @ X.T] is the sum of the squared norms of the rows. *)
Lemma trace_gram (X : Np.matrix) :
  Forall (fun r => length r = Np.ncols X) X -> (0 < Np.ncols X)%nat ->
  trace (Np.matmul X (Np.T X)) = Np.sum (map (fun r => Np.dot r r) X).
Proof.
  intros Hr Hc. unfold trace. f_equal.
  replace (length (Np.matmul X (Np.T X))) with (length X)
    by (unfold Np.matmul; now rewrite length_map).
  apply (map_seq_table _ _ X []). intros i Hi.
  unfold Np.matmul. unfold Np.matrix, Np.vec in *.
  rewrite (@nth_map_lt _ _ _ X i [] []) by assumption.
  rewrite ncols_T by assumption.
  rewrite (@nth_map_lt _ _ _ (seq 0 (length X)) i 0%nat 0)
    by (rewrite length_seq; assumption).
  rewrite seq_nth by assumption. cbn [Nat.add].
  rewrite col_T; [reflexivity | assumption |].
  rewrite Forall_forall in Hr. now apply Hr, nth_In.
Qed.

(** The trace of [np.cov(x)], when [x] has two observations or more: the
    squared distances of the observations to their mean, summed over the
    variables, over the number of observations less one. *)
Lemma cov_trace (x c : Np.matrix) :
  Forall (fun r => length r = Np.ncols x) x ->
  cov x = Some c ->
  (2 <= Np.ncols x)%nat
  /\ trace c
     = 1 / (INR (Np.ncols x) - 1)
       * Np.sum
           (map (fun r =>
                   Np.dot (map (fun v => v - Np.sum r / INR (Np.ncols x)) r)
                          (map (fun v => v - Np.sum r / INR (Np.ncols x)) r))
                x).
Proof.
  intros Hr. unfold cov.
  destruct (Nat.leb_spec (Np.ncols x) 1) as [| Hn]; [discriminate |].
  intros [= <-]. split; [lia |]. rewrite trace_scale. f_equal.
  rewrite map2_self_map. rewrite trace_gram.
  - now rewrite map_map.
  - rewrite Forall_map. apply Forall_forall. intros r Hin.
    rewrite Forall_forall in Hr. rewrite length_map, (Hr r Hin).
    destruct x as [|r0 x]; [destruct Hin |].
    unfold Np.ncols. cbn [map hd]. now rewrite length_map.
  - destruct x as [|r0 x]; [cbn in Hn; lia |].
    unfold Np.ncols. cbn [map hd]. rewrite length_map.
    unfold Np.ncols in Hn. cbn [hd] in Hn. lia.
Qed.

Lemma T_rectangular (m : Np.matrix) :
  Forall (fun r => length r = Np.ncols (Np.T m)) (Np.T m).
Proof.
  unfold Np.T. destruct (Np.ncols m) as [|k]; [constructor |].
  cbn [seq map]. unfold Np.ncols. cbn [hd].
  apply Forall_forall. intros r [<- | Hin]; [reflexivity |].
  apply in_map_iff in Hin. destruct Hin as (j & <- & _).
  unfold Np.col. now rewrite !length_map.
Qed.

(** The trace of the covariance of a window is never negative. *)
Lemma cov_trace_nonneg (pos c : Np.matrix) :
  cov (Np.T pos) = Some c -> 0 <= trace c.
Proof.
  intros E. destruct (cov_trace (T_rectangular pos) E) as [Hn ->].
  apply le_INR in Hn. cbn [INR] in Hn.
  apply Rmult_le_pos.
  - apply Rlt_le, Rdiv_lt_0_compat; lra.
  - apply sum_nonneg. rewrite Forall_map. apply Forall_forall.
    intros r _. apply dot_self_nonneg.
Qed.

(** X16. With a threshold of zero no sample is marked static: the test is a
    strict comparison, and the trace of a covariance is not negative. *)
Theorem get_static_mask_zero_threshold (self : MocapTrajectory)
    (window_size : R) :
  window_defined self window_size ->
  get_static_mask self window_size 0 = repeat false (length (stamps self)).
Proof.
  intros _. unfold get_static_mask. apply static_loop_none. intros i.
  unfold window_is_static. destruct (cov _) as [c|] eqn:E; [| reflexivity].
  apply cov_trace_nonneg in E.
  destruct (Rlt_dec (trace c) (0 ^ 2)) as [Hlt | _]; [| reflexivity].
  exfalso. replace (0 ^ 2) with 0 in Hlt by ring. lra.
Qed.

Lemma skipn_repeat {A} (p : A) (k n : nat) :
  skipn k (repeat p n) = repeat p (n - k).
Proof.
  revert n. induction k as [|k IH]; intros [|n]; cbn; try reflexivity.
  apply IH.
Qed.

Lemma firstn_repeat {A} (p : A) (k n : nat) :
  (k <= n)%nat -> firstn k (repeat p n) = repeat p k.
Proof.
  revert n. induction k as [|k IH]; intros [|n] H; cbn; try reflexivity;
    [lia |].
  f_equal. apply IH. lia.
Qed.

Lemma slice_repeat {A} (p : A) (lo hi n : nat) :
  (lo <= hi <= n)%nat -> slice lo hi (repeat p n) = repeat p (hi - lo).
Proof.
  intros H. unfold slice. rewrite skipn_repeat. apply firstn_repeat. lia.
Qed.

Lemma sum_repeat (a : R) (k : nat) : Np.sum (repeat a k) = INR k * a.
Proof.
  unfold Np.sum. induction k as [|k IH]; [cbn; ring |].
  rewrite S_INR. cbn [repeat fold_right]. rewrite IH. ring.
Qed.

Lemma dot_repeat_zero (k : nat) : Np.dot (repeat 0 k) (repeat 0 k) = 0.
Proof.
  unfold Np.dot, Np.sum. induction k as [|k IH]; cbn; [reflexivity |].
  rewrite IH. ring.
Qed.

Lemma sum_map_zero {A} (f : A -> R) (l : list A) :
  (forall a, In a l -> f a = 0) -> Np.sum (map f l) = 0.
Proof.
  unfold Np.sum. induction l as [|a l IH]; intros H; cbn; [reflexivity |].
  rewrite (H a), IH; [ring | intros; apply H; now right | now left].
Qed.

Lemma T_repeat (p : Np.vec) (k : nat) :
  (0 < k)%nat ->
  Np.T (repeat p k) = map (fun j => repeat (nth j p 0) k) (seq 0 (length p)).
Proof.
  intros Hk. unfold Np.T, Np.ncols. destruct k as [|k]; [lia |].
  cbn [repeat hd]. apply map_ext. intros j. unfold Np.col.
  change (p :: repeat p k) with (repeat p (S k)). apply map_repeat.
Qed.

Lemma ncols_T_repeat (p : Np.vec) (k : nat) :
  p <> [] -> Np.ncols (Np.T (repeat p k)) = k.
Proof.
  intros Hp. destruct k as [|k]; [reflexivity |].
  rewrite T_repeat by lia. destruct p as [|a p]; [congruence |].
  unfold Np.ncols. cbn [length seq map hd]. apply repeat_length.
Qed.

(** Equal observations have a covariance of trace zero. *)
Lemma cov_at_rest (p : Np.vec) (k : nat) (c : Np.matrix) :
  p <> [] -> cov (Np.T (repeat p k)) = Some c -> trace c = 0.
Proof.
  intros Hp E. destruct (cov_trace (T_rectangular _) E) as [Hn ->].
  rewrite ncols_T_repeat in * by assumption.
  rewrite T_repeat by lia.
  rewrite sum_map_zero; [ring |].
  intros r Hin. apply in_map_iff in Hin. destruct Hin as (j & <- & _).
  rewrite map_repeat, sum_repeat.
  replace (nth j p 0 - INR k * nth j p 0 / INR k) with 0.
  - apply dot_repeat_zero.
  - field. apply not_0_INR. lia.
Qed.

Lemma window_is_static_at_rest (self : MocapTrajectory) (p : Np.vec)
    (h : nat) (thr : R) (i : nat) :
  raw_position self = repeat p (length (stamps self)) ->
  p <> [] -> (1 <= h)%nat -> (h <= i)%nat ->
  (i + h <= length (stamps self))%nat -> 0 < thr ->
  window_is_static self h thr i = true.
Proof.
  intros Hraw Hp Hh Hlo Hhi Hthr. unfold window_is_static.
  rewrite Hraw, slice_repeat by lia.
  destruct (cov _) as [c|] eqn:E.
  - rewrite (@cov_at_rest p _ c Hp E).
    destruct (Rlt_dec 0 thr); [reflexivity | contradiction].
  - exfalso. unfold cov in E. rewrite ncols_T_repeat in E by assumption.
    destruct (Nat.leb_spec (i + h - (i - h)) 1); [lia | discriminate].
Qed.

(** X17. A body at rest: when every raw position is the same, the threshold
    is not zero and there is a window at least (1 <= h and 2h < N), every
    sample is marked static, except that with a single window (N = 2h + 1)
    the samples after the middle one stay unmarked. *)
Theorem get_static_mask_at_rest (self : MocapTrajectory)
    (window_size std_dev_threshold : R) (p : Np.vec) :
  window_defined self window_size ->
  raw_position self = repeat p (length (stamps self)) ->
  p <> [] ->
  std_dev_threshold <> 0 ->
  let h := Z.to_nat (half_width self window_size) in
  let N := length (stamps self) in
  (1 <= h)%nat -> (2 * h < N)%nat ->
  forall j, (j < N)%nat ->
    nth j (get_static_mask self window_size std_dev_threshold) false
    = if (N =? 2 * h + 1)%nat then (j <=? h)%nat else true.
Proof.
  intros _ Hraw Hp Hthr h N Hh HN j Hj. unfold get_static_mask. fold h.
  destruct (static_loop_spec self h (std_dev_threshold ^ 2)) as [_ Hnth].
  fold N in Hnth. rewrite (Hnth j Hj). unfold mask_after. fold N.
  assert (Hpos : 0 < std_dev_threshold ^ 2).
  { replace (std_dev_threshold ^ 2) with (Rsqr std_dev_threshold)
      by (unfold Rsqr; ring).
    now apply Rsqr_pos_lt. }
  assert (Hst : forall i, (h <= i)%nat -> (i + h <= N)%nat ->
                  window_is_static self h (std_dev_threshold ^ 2) i = true).
  { intros i H1 H2. now apply (@window_is_static_at_rest self p). }
  rewrite (Hst h), (Hst (N - h - 1)%nat) by lia. rewrite !andb_true_r.
  destruct (Nat.leb_spec h j) as [H1 | H1];
    destruct (Nat.ltb_spec j (N - h)) as [H2 | H2]; cbn [andb orb].
  - rewrite (Hst j) by lia. cbn [orb]. split_comparisons; reflexivity.
  - split_comparisons; reflexivity.
  - split_comparisons; reflexivity.
  - lia.
Qed.

(** *** Further properties of the readers *)

(** X18. [from_ros] takes one sample per message, in order: the stamp, the
    position [x, y, z] and the orientation in the order [w, x, y, z].  The
    orientations go to a new array, which the constructor leaves normalized
    and which the trajectory holds; no array that existed is touched. *)
Theorem from_ros_keeps_every_message (pose_data : list PoseStamped)
    (f : option String.string) (h : store) :
  (2 <= length pose_data)%nat ->
  StronglySorted Rlt (map stamp_sec pose_data) ->
  let '(self, h') := from_ros pose_data f h in
  stamps self = map stamp_sec pose_data
  /\ raw_position self
     = map (fun p => [position_x p; position_y p; position_z p]) pose_data
  /\ frame_id self = f
  /\ raw_quaternion self = length h
  /\ load h' (raw_quaternion self)
     = normalize_quaternions
         (map (fun p => [orientation_w p; orientation_x p; orientation_y p;
                         orientation_z p]) pose_data)
  /\ (forall r, (r < length h)%nat -> load h' r = load h r)
  /\ well_shaped self.
Proof.
  intros HN _. unfold from_ros.
  match goal with
  | |- context [alloc h ?q] =>
      pose proof (load_alloc_new h q) as Hnew;
      pose proof (load_alloc_old h q) as Hold;
      set (quat := q) in *
  end.
  unfold alloc in *. cbn [fst snd] in *.
  unfold __init__, _fit_quaternion_spline.
  cbn [raw_quaternion raw_position _fit_position_spline set_pos_spline
       set_quat_spline set_static_mask stamps frame_id].
  assert (Hlen : (length h < length (h ++ [quat]))%nat)
    by (rewrite length_app; cbn; lia).
  rewrite !load_update_same by assumption. rewrite Hnew.
  repeat split.
  - intros r Hr. rewrite load_update_other by lia. now apply Hold.
  - cbn [_pos_spline _quat_spline set_static_mask set_quat_spline
         _fit_position_spline set_pos_spline csaps sp_y].
    rewrite length_T.
    destruct pose_data as [|p0 pose_data]; [cbn in HN; lia | reflexivity].
  - cbn [_pos_spline _quat_spline set_static_mask set_quat_spline
         _fit_position_spline set_pos_spline csaps sp_y].
    rewrite length_T, ncols_normalize_quaternions. subst quat.
    destruct pose_data as [|p0 pose_data]; [cbn in HN; lia | reflexivity].
Qed.

Lemma prefix_app_inv (a b s : String.string) :
  String.prefix (String.append a b) s = true ->
  exists s', s = String.append a s' /\ String.prefix b s' = true.
Proof.
  revert s. induction a as [|c a IH]; intros s H.
  - exists s. split; [reflexivity | exact H].
  - cbn [String.append] in H. destruct s as [|c' s]; [discriminate |].
    cbn [String.prefix] in H.
    destruct (ascii_dec c c') as [<- | ]; [| discriminate].
    destruct (IH s H) as (s' & -> & Hp). exists s'.
    split; [reflexivity | exact Hp].
Qed.

Lemma str_in_prefix (b s : String.string) :
  String.prefix b s = true -> str_in b s = true.
Proof. intros H. destruct s; cbn [str_in]; rewrite H; reflexivity. Qed.

Lemma str_in_app_r (a b s : String.string) :
  str_in b s = true -> str_in b (String.append a s) = true.
Proof.
  induction a as [|c a IH]; intros H; [exact H |].
  cbn [String.append str_in].
  destruct (String.prefix b _); [reflexivity | now apply IH].
Qed.

(** A string that contains [a ++ b] contains [b]. *)
Lemma str_in_longer (a b s : String.string) :
  str_in (String.append a b) s = true -> str_in b s = true.
Proof.
  induction s as [|c s IH]; intros H; cbn [str_in] in H.
  - destruct (String.prefix (String.append a b) "") eqn:E; [| discriminate].
    apply prefix_app_inv in E. destruct E as (s' & Hs & Hp).
    rewrite Hs. now apply str_in_app_r, str_in_prefix.
  - destruct (String.prefix (String.append a b) (String c s)) eqn:E.
    + apply prefix_app_inv in E. destruct E as (s' & Hs & Hp).
      rewrite Hs. now apply str_in_app_r, str_in_prefix.
    + specialize (IH H). cbn [str_in]. rewrite IH.
      destruct (String.prefix b _); reflexivity.
Qed.

Lemma filter_filter_sub {A} (f g : A -> bool) (l : list A) :
  (forall a, g a = true -> f a = true) ->
  filter g (filter f l) = filter g l.
Proof.
  intros H. induction l as [|a l IH]; cbn; [reflexivity |].
  destruct (f a) eqn:Ef; cbn; rewrite IH; [reflexivity |].
  destruct (g a) eqn:Eg; [| reflexivity].
  rewrite (H a Eg) in Ef. discriminate.
Qed.

(** X19. [from_bag] raises [ValueError] as soon as more than one topic of
    the bag contains [<body_id>/vrpn_client_node/<body_id>/pose], before any
    message is read.  Otherwise, when the topics left hold two messages or
    more with increasing stamps, so that the constructor accepts them, it
    returns the trajectory that [from_ros] builds from them: topics that
    contain only [vrpn_client_node/<body_id>/pose] never make it raise. *)
Theorem from_bag_raises_iff_several_full_matches (bag : Bag)
    (body_id : String.string) (topic : option String.string) (h : store) :
  let full :=
    filter
      (fun s =>
         str_in
           (String.append body_id
              (String.append "/"
                 (String.append "vrpn_client_node/"
                    (String.append body_id "/pose"))))
           s)
      (bag_topics bag) in
  let data := bag_to_list bag (candidate_topics bag body_id) in
  ((1 < length full)%nat ->
   from_bag bag body_id topic h = Raise "ValueError"%string)
  /\ ((length full <= 1)%nat ->
      (2 <= length data)%nat ->
      StronglySorted Rlt (map stamp_sec data) ->
      from_bag bag body_id topic h
      = Return (from_ros data (Some body_id) h)).
Proof.
  cbv zeta.
  assert (Hraise :
    (1 <? length (candidate_topics bag body_id))%nat = true
    <-> (1 < length
               (filter
                  (fun s =>
                     str_in
                       (String.append body_id
                          (String.append "/"
                             (String.append "vrpn_client_node/"
                                (String.append body_id "/pose"))))
                       s)
                  (bag_topics bag)))%nat).
  { rewrite Nat.ltb_lt. unfold candidate_topics.
    set (search := String.append "vrpn_client_node/"
                     (String.append body_id "/pose")).
    set (A := fun s => str_in search s).
    set (B := fun s =>
                str_in (String.append body_id (String.append "/" search)) s).
    assert (HBA : forall s, B s = true -> A s = true).
    { intros s Hs. unfold A, B in *.
      apply (str_in_longer "/" search), (str_in_longer body_id). exact Hs. }
    pose proof (filter_filter_sub A B (bag_topics bag) HBA) as Hff.
    destruct (Nat.ltb_spec 1 (length (filter A (bag_topics bag))))
      as [H1 | H1].
    - now rewrite Hff.
    - pose proof (filter_length_le B (filter A (bag_topics bag))) as Hle.
      rewrite Hff in Hle. lia. }
  unfold from_bag. fold (candidate_topics bag body_id).
  destruct (1 <? length (candidate_topics bag body_id))%nat eqn:E.
  - split; [reflexivity |]. intros Hle.
    pose proof (proj1 Hraise eq_refl). lia.
  - split; [| reflexivity]. intros Hlt. apply Hraise in Hlt. discriminate.
Qed.

(** X20. When a single topic is left, and holds two messages or more with
    increasing stamps, [from_bag] returns the trajectory that [from_ros]
    builds from the messages of that topic, with the body's name as frame
    ID; the topic is one of the bag's and contains
    [vrpn_client_node/<body_id>/pose]. *)
Theorem from_bag_reads_single_candidate (bag : Bag)
    (body_id : String.string) (topic : option String.string) (h : store)
    (s : String.string) :
  candidate_topics bag body_id = [s] ->
  (2 <= length (bag_to_list bag [s]))%nat ->
  StronglySorted Rlt (map stamp_sec (bag_to_list bag [s])) ->
  from_bag bag body_id topic h
  = Return (from_ros (bag_to_list bag [s]) (Some body_id) h)
  /\ frame_id (fst (from_ros (bag_to_list bag [s]) (Some body_id) h))
     = Some body_id
  /\ In s (bag_topics bag)
  /\ str_in (String.append "vrpn_client_node/"
               (String.append body_id "/pose")) s = true.
Proof.
  intros Hc _ _. split; [| split].
  - unfold from_bag. fold (candidate_topics bag body_id). now rewrite Hc.
  - unfold from_ros, alloc, __init__, _fit_quaternion_spline. reflexivity.
  - assert (Hin : In s (candidate_topics bag body_id))
      by (rewrite Hc; now left).
    unfold candidate_topics in Hin.
    destruct (1 <? _)%nat;
      repeat (apply filter_In in Hin; destruct Hin as [Hin ?]);
      tauto.
Qed.

End Trajectory.

(** ** The statements at three samples at rest *)

Lemma still_well_shaped : well_shaped still.
Proof. split; reflexivity. Qed.

Lemma angular_velocity_is_S_q_dot_witness :
  length (sp_y (_quat_spline still)) = 4%nat
  /\ Np.atleast_2d (angular_velocity constant_spline still [0; 1])
     = map (fun t =>
              matvec
                (S_matrix
                   (normalized
                      (spline_at constant_spline (_quat_spline still) 0 t)))
                (spline_at constant_spline (_quat_spline still) 1 t))
           [0; 1].
Proof.
  split; [reflexivity |].
  apply (@angular_velocity_is_S_q_dot constant_spline still [0; 1]).
  reflexivity.
Defined.

Lemma fit_quaternion_spline_normalizes_witness :
  let quat := [[2; 0; 0; 0]; [-2; 0; 0; 0]] in
  let r := _fit_quaternion_spline still [0; 1] 0%nat [quat] in
  (length (load (snd r) 0%nat) = length quat
   /\ nth 0 (load (snd r) 0%nat) [] = normalized (nth 0 quat [])
   /\ forall i, (S i < length quat)%nat ->
        flipped_when_closer
          (nth i (load (snd r) 0%nat) [])
          (normalized (nth (S i) quat []))
          (nth (S i) (load (snd r) 0%nat) []))
  /\ Forall unit_norm (load (snd r) 0%nat)
  /\ consecutive closer_sign (load (snd r) 0%nat)
  /\ _quat_spline (fst r)
     = csaps [0; 1] (Np.T (load (snd r) 0%nat)) (99999 / 100000).
Proof.
  apply (@fit_quaternion_spline_normalizes still [0; 1] 0%nat
           [[[2; 0; 0; 0]; [-2; 0; 0; 0]]]).
  - cbn. lia.
  - repeat constructor; unfold Np.norm, Np.dot, Np.sum;
      cbn [Np.map2 fold_right];
      match goal with
      | |- sqrt ?x <> 0 => replace x with (2 * 2) by ring
      end; rewrite sqrt_square; lra.
Defined.

Lemma get_static_mask_marks_witness :
  let h := Z.to_nat (round (1 / 2 * (INR 3 / (2 - 0)))) in
  length (get_static_mask still 1 (8 / 10000)) = 3%nat
  /\ forall j, (j < 3)%nat ->
       (nth j (get_static_mask still 1 (8 / 10000)) false = true
        <-> ((h <= j < 3 - h)%nat
             /\ trace_below (slice (j - h) (j + h) (raw_position still))
                  ((8 / 10000) ^ 2))
            \/ ((j < h)%nat /\ (h < 3 - h)%nat
                /\ trace_below (slice (h - h) (h + h) (raw_position still))
                     ((8 / 10000) ^ 2))
            \/ ((3 - h <= j)%nat /\ (h < 3 - h - 1)%nat
                /\ trace_below
                     (slice (3 - h - 1 - h) (3 - h - 1 + h) (raw_position still))
                     ((8 / 10000) ^ 2))).
Proof.
  apply (@get_static_mask_marks still 1 (8 / 10000)).
  - discriminate.
  - cbn. lra.
  - change (length (stamps still)) with 3%nat.
    change (last (stamps still) 0) with 2. change (hd 0 (stamps still)) with 0.
    rewrite (@round_near _ 1%Z); [lia |]. cbn. lra.
Defined.

Lemma body_velocity_shape_witness :
  Np.shape (body_velocity constant_spline identity_rotation still [0; 1])
  = [3%nat; 2%nat].
Proof.
  apply (@body_velocity_shape constant_spline identity_rotation still [0; 1]).
  - exact still_well_shaped.
  - reflexivity.
  - cbn. lia.
Defined.

Lemma accelerometer_is_rotated_specific_force_witness :
  Np.atleast_2d
    (accelerometer constant_spline identity_rotation still [0; 1] None)
  = map (fun t =>
           matvec (Np.T (rot_at constant_spline identity_rotation still t))
             (vsub (acceleration_at constant_spline still t)
                [0; 0; - (980665 / 100000)]))
        [0; 1].
Proof.
  apply (@accelerometer_is_rotated_specific_force constant_spline
           identity_rotation still [0; 1] None).
  - exact still_well_shaped.
  - discriminate.
  - discriminate.
Defined.

Lemma rotate_world_frame_refits_both_witness :
  let self' :=
    fst (rotate_world_frame constant_spline identity_rotation
           identity_quaternion still (Np.eye 3) still_store) in
  _quat_spline self'
  = csaps (stamps still)
      (Np.T (normalize_quaternions
               (map (fun t =>
                       Np.ravel
                         (identity_quaternion
                            (Np.matmul (Np.T (Np.eye 3))
                               (rot_at constant_spline identity_rotation
                                  still t))))
                    (stamps still))))
      (99999 / 100000)
  /\ _pos_spline self'
     = csaps (stamps still)
         (Np.T (map (fun t =>
                       matvec (Np.T (Np.eye 3))
                         (position_at constant_spline still t))
                    (stamps still)))
         (9999 / 10000).
Proof.
  apply (@rotate_world_frame_refits_both constant_spline identity_rotation
           identity_quaternion still (Np.eye 3) still_store).
  - exact still_well_shaped.
  - split; [reflexivity | repeat constructor].
Defined.

Lemma rotate_body_frame_refits_orientation_only_witness :
  let self' :=
    fst (rotate_body_frame constant_spline identity_rotation
           identity_quaternion still (Np.eye 3) still_store) in
  _quat_spline self'
  = csaps (stamps still)
      (Np.T (normalize_quaternions
               (map (fun t =>
                       Np.ravel
                         (identity_quaternion
                            (Np.matmul
                               (rot_at constant_spline identity_rotation
                                  still t)
                               (Np.T (Np.eye 3)))))
                    (stamps still))))
      (99999 / 100000)
  /\ _pos_spline self' = _pos_spline still
  /\ raw_position self' = raw_position still
  /\ (forall query,
        position constant_spline self' query
        = position constant_spline still query
        /\ velocity constant_spline self' query
           = velocity constant_spline still query
        /\ acceleration constant_spline self' query
           = acceleration constant_spline still query).
Proof.
  apply (@rotate_body_frame_refits_orientation_only constant_spline
           identity_rotation identity_quaternion still (Np.eye 3) still_store).
  exact still_well_shaped.
Defined.

Lemma is_static_looks_up_nearest_witness :
  Forall2
    (fun t flag =>
       exists i,
         nearest_sample (stamps still) t i
         /\ flag = nth i (static_mask still) false
         /\ (t <= hd 0 (stamps still) -> i = 0%nat)
         /\ (last (stamps still) 0 <= t
             -> i = (length (stamps still) - 1)%nat))
    [-1; 3] (is_static still [-1; 3])
  /\ (forall x pos q f h,
        sampled x pos (load h q) ->
        stamps (fst (__init__ x pos q f h)) = x
        /\ raw_position (fst (__init__ x pos q f h)) = pos
        /\ static_mask (fst (__init__ x pos q f h))
           = get_static_mask (fst (__init__ x pos q f h)) 1 (8 / 10000)
        /\ forall t, stamps t = x -> raw_position t = pos ->
             static_mask (fst (__init__ x pos q f h))
             = get_static_mask t 1 (8 / 10000))
  /\ (forall self',
        stamps self' = stamps still -> static_mask self' = static_mask still ->
        is_static self' [-1; 3] = is_static still [-1; 3]).
Proof.
  apply (@is_static_looks_up_nearest still [-1; 3]).
  - change (stamps still) with [0; 1; 2].
    repeat constructor; lra.
  - discriminate.
Defined.

Lemma rotations_keep_raw_data_and_mask_witness :
  let r :=
    rotate_body_frame constant_spline identity_rotation identity_quaternion
      still (Np.eye 3) still_store in
  stamps (fst r) = stamps still
  /\ raw_position (fst r) = raw_position still
  /\ raw_quaternion (fst r) = raw_quaternion still
  /\ load (snd r) (raw_quaternion (fst r))
     = load still_store (raw_quaternion still)
  /\ frame_id (fst r) = frame_id still
  /\ static_mask (fst r) = static_mask still
  /\ forall query, is_static (fst r) query = is_static still query.
Proof.
  apply (@rotations_keep_raw_data_and_mask constant_spline identity_rotation
           identity_quaternion still (Np.eye 3) still_store).
  - cbn. lia.
  - left. reflexivity.
Defined.

(** ** The further statements at samples at rest *)

Lemma norm_e1 : Np.norm [1; 0; 0; 0] = 1.
Proof.
  unfold Np.norm, Np.dot, Np.sum. cbn [Np.map2 fold_right].
  replace (1 * 1 + (0 * 0 + (0 * 0 + (0 * 0 + 0)))) with 1 by ring.
  apply sqrt_1.
Qed.

Lemma still_quat_value (t : R) :
  spline_at constant_spline (_quat_spline still) 0 t = normalized [1; 0; 0; 0].
Proof. reflexivity. Qed.

Lemma still_rows_nonzero :
  Forall (fun q => Np.norm q <> 0)
    [ [1; 0; 0; 0]; [1; 0; 0; 0]; [1; 0; 0; 0] ].
Proof. repeat constructor; rewrite norm_e1; lra. Qed.

Lemma still_half_width_4 : half_width still 4 = 3%Z.
Proof.
  unfold half_width. apply round_near.
  unfold average_freq. cbn [still stamps __init__ fst last hd length INR].
  cbn. lra.
Qed.

Lemma still_window_defined : window_defined still 1.
Proof.
  repeat split; [discriminate | cbn; lra | rewrite still_half_width; lia].
Qed.

Lemma position_queries_by_row_witness :
  (position constant_spline still [0; 1]
   = map (position_at constant_spline still) [0; 1]
   /\ velocity constant_spline still [0; 1]
      = map (velocity_at constant_spline still) [0; 1]
   /\ acceleration constant_spline still [0; 1]
      = map (acceleration_at constant_spline still) [0; 1])
  /\ Forall (fun r => length r = 3%nat)
       (position constant_spline still [0; 1]
        ++ velocity constant_spline still [0; 1]
        ++ acceleration constant_spline still [0; 1]).
Proof.
  apply (@position_queries_by_row constant_spline still [0; 1]).
  exact still_well_shaped.
Defined.

Lemma quaternion_rows_have_unit_norm_witness :
  length (quaternion constant_spline still [0; 1]) = 2%nat
  /\ Forall unit_norm (quaternion constant_spline still [0; 1]).
Proof.
  apply (@quaternion_rows_have_unit_norm constant_spline still [0; 1]).
  - exact (proj2 (well_shaped_channels still_well_shaped)).
  - assert (H : unit_norm (normalized [1; 0; 0; 0]))
      by (apply normalized_unit; rewrite norm_e1; lra).
    unfold unit_norm in H.
    repeat constructor; rewrite still_quat_value, H; lra.
Defined.

Lemma pose_matrices_by_query_witness :
  pose_matrix constant_spline identity_rotation homogeneous still [0; 1]
  = map (fun t =>
           homogeneous (rot_at constant_spline identity_rotation still t)
             (position_at constant_spline still t))
        [0; 1]
  /\ extended_pose_matrix constant_spline identity_rotation
       extended_homogeneous still [0; 1]
     = map (fun t =>
              extended_homogeneous
                (rot_at constant_spline identity_rotation still t)
                (velocity_at constant_spline still t)
                (position_at constant_spline still t))
           [0; 1].
Proof.
  apply (@pose_matrices_by_query constant_spline identity_rotation
           homogeneous extended_homogeneous still [0; 1]).
  exact still_well_shaped.
Defined.

Lemma to_pynav_one_state_per_query_witness :
  to_pynav constant_spline identity_rotation homogeneous
    extended_homogeneous still [0; 1] false
  = map (fun t =>
           SE3State
             (homogeneous (rot_at constant_spline identity_rotation still t)
                (position_at constant_spline still t))
             t (frame_id still))
        [0; 1]
  /\ to_pynav constant_spline identity_rotation homogeneous
       extended_homogeneous still [0; 1] true
     = map (fun t =>
              SE23State
                (extended_homogeneous
                   (rot_at constant_spline identity_rotation still t)
                   (velocity_at constant_spline still t)
                   (position_at constant_spline still t))
                t (frame_id still))
           [0; 1].
Proof.
  apply (@to_pynav_one_state_per_query constant_spline identity_rotation
           homogeneous extended_homogeneous still [0; 1]).
  exact still_well_shaped.
Defined.

Lemma body_velocity_entries_witness :
  nth 1
    (nth 0
       (Np.atleast_2d
          (body_velocity constant_spline identity_rotation still [0; 1]))
       [])
    0
  = nth 0
      (matvec
         (Np.T (rot_at constant_spline identity_rotation still
                  (nth 1 [0; 1] 0)))
         (velocity_at constant_spline still (nth 1 [0; 1] 0)))
      0.
Proof.
  apply (@body_velocity_entries constant_spline identity_rotation still
           [0; 1]).
  - exact still_well_shaped.
  - reflexivity.
  - cbn. lia.
  - lia.
  - cbn. lia.
Defined.

Lemma body_velocity_single_query_witness :
  body_velocity constant_spline identity_rotation still [0]
  = Np.Arr1
      (matvec (Np.T (rot_at constant_spline identity_rotation still 0))
         (velocity_at constant_spline still 0)).
Proof.
  apply (@body_velocity_single_query constant_spline identity_rotation still
           0).
  exact still_well_shaped.
Defined.

Lemma accelerometer_shape_witness :
  Np.shape (accelerometer constant_spline identity_rotation still [0; 1] None)
  = [2%nat; 3%nat].
Proof.
  apply (@accelerometer_shape constant_spline identity_rotation still [0; 1]
           None).
  - exact still_well_shaped.
  - reflexivity.
  - discriminate.
  - cbn. lia.
Defined.

Lemma fit_quaternion_spline_twice_witness :
  let '(self1, h1) :=
    _fit_quaternion_spline still [0; 1] 0%nat
      [[[2; 0; 0; 0]; [-2; 0; 0; 0]]] in
  let '(self2, h2) := _fit_quaternion_spline self1 [0; 1] 0%nat h1 in
  h2 = h1 /\ self2 = self1.
Proof.
  apply (@fit_quaternion_spline_twice still [0; 1] 0%nat
           [[[2; 0; 0; 0]; [-2; 0; 0; 0]]]).
  - cbn. lia.
  - repeat constructor; unfold Np.norm, Np.dot, Np.sum;
      cbn [Np.map2 fold_right];
      match goal with
      | |- sqrt ?x <> 0 => replace x with (2 * 2) by ring
      end; rewrite sqrt_square; lra.
Defined.

Lemma init_establishes_invariants_witness :
  let '(self, h') :=
    __init__ [0; 1; 2] [ [0; 0; 0]; [0; 0; 0]; [0; 0; 0] ] 0%nat None
      still_store in
  (stamps self = [0; 1; 2]
   /\ raw_position self = [ [0; 0; 0]; [0; 0; 0]; [0; 0; 0] ]
   /\ raw_quaternion self = 0%nat
   /\ frame_id self = None)
  /\ (load h' 0%nat = normalize_quaternions (load still_store 0%nat)
      /\ Forall unit_norm (load h' 0%nat)
      /\ forall r, r <> 0%nat -> load h' r = load still_store r)
  /\ (_pos_spline self
      = csaps [0; 1; 2] (Np.T [ [0; 0; 0]; [0; 0; 0]; [0; 0; 0] ])
          (9999 / 10000)
      /\ _quat_spline self
         = csaps [0; 1; 2] (Np.T (load h' 0%nat)) (99999 / 100000)
      /\ well_shaped self)
  /\ length (static_mask self) = length [0; 1; 2].
Proof.
  apply (@init_establishes_invariants [0; 1; 2]
           [ [0; 0; 0]; [0; 0; 0]; [0; 0; 0] ] 0%nat None still_store).
  - cbn. lia.
  - repeat split; try reflexivity; try (cbn; lia);
      repeat constructor; lra.
  - exact still_rows_nonzero.
Defined.

Lemma rotations_keep_splines_well_shaped_witness :
  well_shaped
    (fst (rotate_body_frame constant_spline identity_rotation
            identity_quaternion still (Np.eye 3) still_store))
  /\ (is_3x3 (Np.eye 3) ->
      well_shaped
        (fst (rotate_world_frame constant_spline identity_rotation
                identity_quaternion still (Np.eye 3) still_store))).
Proof.
  apply (@rotations_keep_splines_well_shaped constant_spline
           identity_rotation identity_quaternion still (Np.eye 3)
           still_store).
  - exact still_well_shaped.
  - discriminate.
  - reflexivity.
Defined.

Lemma get_static_mask_without_window_witness :
  get_static_mask still 4 (8 / 10000) = repeat false (length (stamps still)).
Proof.
  apply (@get_static_mask_without_window still 4 (8 / 10000)).
  - repeat split;
      [discriminate | cbn; lra | rewrite still_half_width_4; lia].
  - right. rewrite still_half_width_4. cbn. lia.
Defined.

Lemma get_static_mask_monotone_witness :
  nth 0 (get_static_mask still 1 1) false = true.
Proof.
  apply (@get_static_mask_monotone still 1 (8 / 10000) 1 0%nat).
  - exact still_window_defined.
  - cbn [pow]. lra.
  - rewrite still_mask. reflexivity.
Defined.

Lemma get_static_mask_zero_threshold_witness :
  get_static_mask still 1 0 = repeat false (length (stamps still)).
Proof.
  apply (@get_static_mask_zero_threshold still 1).
  exact still_window_defined.
Defined.

Lemma get_static_mask_at_rest_witness :
  nth 2 (get_static_mask still 1 (8 / 10000)) false
  = if (length (stamps still) =? 2 * Z.to_nat (half_width still 1) + 1)%nat
    then (2 <=? Z.to_nat (half_width still 1))%nat
    else true.
Proof.
  apply (@get_static_mask_at_rest still 1 (8 / 10000) [0; 0; 0]).
  - exact still_window_defined.
  - reflexivity.
  - discriminate.
  - lra.
  - rewrite still_half_width. cbn. lia.
  - rewrite still_half_width. cbn. lia.
  - cbn. lia.
Defined.

Lemma is_static_at_own_stamps_witness :
  is_static still (stamps still) = static_mask still.
Proof.
  apply (@is_static_at_own_stamps still).
  - discriminate.
  - change (stamps still) with [0; 1; 2]. repeat constructor; lra.
  - transitivity (length (get_static_mask still 1 (8 / 10000)));
      [reflexivity | rewrite still_mask; reflexivity].
Defined.

Lemma from_ros_keeps_every_message_witness :
  let '(self, h') := from_ros [pose_at_rest 0; pose_at_rest 1] None [] in
  stamps self = map stamp_sec [pose_at_rest 0; pose_at_rest 1]
  /\ raw_position self
     = map (fun p => [position_x p; position_y p; position_z p])
         [pose_at_rest 0; pose_at_rest 1]
  /\ frame_id self = None
  /\ raw_quaternion self = length (@nil Np.matrix)
  /\ load h' (raw_quaternion self)
     = normalize_quaternions
         (map (fun p => [orientation_w p; orientation_x p; orientation_y p;
                         orientation_z p])
            [pose_at_rest 0; pose_at_rest 1])
  /\ (forall r, (r < length (@nil Np.matrix))%nat -> load h' r = load [] r)
  /\ well_shaped self.
Proof.
  apply (@from_ros_keeps_every_message [pose_at_rest 0; pose_at_rest 1] None
           []).
  - cbn. lia.
  - cbn. repeat constructor; lra.
Defined.

Lemma from_bag_raises_iff_several_full_matches_witness :
  from_bag two_poses two_streams "ifo001" None [] = Raise "ValueError"%string
  /\ from_bag two_poses one_stream "ifo001" None []
     = Return
         (from_ros (two_poses one_stream (candidate_topics one_stream "ifo001"))
            (Some "ifo001"%string) []).
Proof.
  split.
  - apply (proj1 (@from_bag_raises_iff_several_full_matches two_poses
                    two_streams "ifo001" None [])).
    cbn. lia.
  - apply (proj2 (@from_bag_raises_iff_several_full_matches two_poses
                    one_stream "ifo001" None [])).
    + cbn. lia.
    + cbn. lia.
    + cbn. repeat constructor; lra.
Defined.

Lemma from_bag_reads_single_candidate_witness :
  from_bag two_poses one_stream "ifo001" None []
  = Return
      (from_ros
         (two_poses one_stream ["/ifo001/vrpn_client_node/ifo001/pose"%string])
         (Some "ifo001"%string) [])
  /\ frame_id
       (fst (from_ros
               (two_poses one_stream
                  ["/ifo001/vrpn_client_node/ifo001/pose"%string])
               (Some "ifo001"%string) []))
     = Some "ifo001"%string
  /\ In "/ifo001/vrpn_client_node/ifo001/pose"%string (bag_topics one_stream)
  /\ str_in
       (String.append "vrpn_client_node/"
          (String.append "ifo001" "/pose"))
       "/ifo001/vrpn_client_node/ifo001/pose"
     = true.
Proof.
  apply (@from_bag_reads_single_candidate two_poses one_stream "ifo001" None
           [] "/ifo001/vrpn_client_node/ifo001/pose").
  - reflexivity.
  - cbn. lia.
  - cbn. repeat constructor; lra.
Defined.
